(** * git-json-api: the document store (src/cache.js) and the repository
      operations (src/repo.js), embedded in Rocq.

    The JavaScript values that the snapshot shares between its nested and
    its flat form live in an explicit heap, so that the in-place updates of
    [lodash.set] are visible through every alias.  The version-control
    engine (nodegit), the file system helpers and the JSON5 parser are an
    interface, [Engine], that the code drives; the members of JavaScript
    objects that have a meaning of their own are an interface too,
    [Runtime]. *)

From Stdlib Require Import ZArith String Ascii List Bool Lia DecimalString.
From stdpp Require Import base option list gmap strings fin_maps.


(** ** JavaScript strings *)

Module JsString.

(** [s.split(sep)] for a one-character separator: never the empty list. *)
Fixpoint split (sep : ascii) (s : string) : list string :=
  match s with
  | EmptyString => [EmptyString]
  | String c s' =>
      if Ascii.eqb c sep then EmptyString :: split sep s'
      else match split sep s' with
           | [] => [String c EmptyString]
           | x :: xs => String c x :: xs
           end
  end.


(** [s.slice(0, -n)]. *)
Definition slice_0_neg (n : nat) (s : string) : string :=
  String.substring 0 (String.length s - n) s.

(** [s.startsWith(p)]. *)
Definition startsWith (s p : string) : bool := String.prefix p s.

(** [s.endsWith(p)]. *)
Definition endsWith (s p : string) : bool :=
  (String.length p <=? String.length s)%nat &&
  String.eqb (String.substring (String.length s - String.length p)
                               (String.length p) s) p.

(** A template literal [`${x}`] of a value that may be [undefined]. *)
Definition template (x : option string) : string :=
  match x with
  | Some s => s
  | None => "undefined"
  end.

(** [x || y] on strings. *)
Definition or_else (x : option string) (y : string) : string :=
  match x with
  | Some s => if String.eqb s "" then y else s
  | None => y
  end.

Definition is_digit (c : ascii) : bool :=
  let n := nat_of_ascii c in (48 <=? n) && (n <=? 57).

Fixpoint all_digits (s : string) : bool :=
  match s with
  | EmptyString => true
  | String c s' => is_digit c && all_digits s'
  end.

Fixpoint decimal (acc : Z) (s : string) : Z :=
  match s with
  | EmptyString => acc
  | String c s' => decimal (10 * acc + (Z.of_nat (nat_of_ascii c) - 48))%Z s'
  end.

(** The canonical unsigned decimal numerals: [0], or a digit other than
    zero followed by any digits. *)
Definition is_uint (s : string) : bool :=
  match s with
  | EmptyString => false
  | String c rest =>
      if Ascii.eqb c "0"%char then String.eqb rest ""
      else is_digit c && all_digits rest
  end.

End JsString.

(** ** JavaScript values

    A value is a primitive, a reference to an object that the code or the
    parser created, or a value of the runtime itself (a built-in function
    or prototype).  An object that the code created is the finite map of
    its own properties, with a flag telling an array from a plain object.
    Numbers are only stored and compared, never computed with. *)

Definition loc := nat.

Inductive value : Type :=
| VUndefined
| VNull
| VBool (b : bool)
| VNum (n : Z)
| VStr (s : string)
| VObj (l : loc)
| VNative (id : nat).

#[global] Instance value_eq_dec : EqDecision value.
Proof. solve_decision. Defined.

Record js_object : Type := Obj { is_array : bool; props : gmap string value }.

(** The objects that the code created, by address. *)
Definition store := list js_object.

(** The heap: the objects, and whether a member with a meaning of its own
    in the runtime has been written.  Such a write can change what every
    object inherits ([__proto__/x.json] writes into [Object.prototype]),
    or an object beyond its own properties (the [length] of an array):
    from then on the heap is [exotic], and every access to a member is an
    operation of the runtime. *)
Record heap : Type := MkHeap { objects : store; exotic : bool }.

(** The parsed form of a document, before it is allocated. *)
#[local] Set Warnings "-register-all".
Inductive json : Type :=
| JNull
| JBool (b : bool)
| JNum (n : Z)
| JStr (s : string)
| JArr (items : list json)
| JObj (members : list (string * json)).

(** ** Errors and results *)

Record js_error : Type := JsError { message : string; errno : option Z }.

(** [new Error(msg)]. *)
Definition new_Error (msg : string) : js_error := JsError msg None.

Inductive result (A : Type) : Type :=
| Ok (a : A)
| Err (e : js_error).
Arguments Ok {A} a.
Arguments Err {A} e.

(** ** The runtime

    What JavaScript does with the members that have a meaning of their
    own.  [native_name] tells the names that the runtime itself defines
    on some object: what objects, arrays, strings, numbers and functions
    inherit ([constructor], [__proto__], [toString], [push], ...) and the
    [length] of arrays and strings.  An access under such a name, an
    access to a value of the runtime, to a character of a string, or to
    any member once the heap is exotic, is an operation of the runtime:
    it may return a built-in, call an accessor, truncate an array, change
    what every object inherits, or throw.  Nothing is assumed about these
    operations. *)
(** The names that the objects of ECMAScript inherit from
    [Object.prototype], and the members that arrays, strings, numbers and
    functions define besides.  A runtime may define more of them, never
    fewer: a name of this list that an older runtime lacks is treated as
    native all the same, which assumes nothing about it. *)
Definition standard_names : list string :=
  ["constructor"; "__defineGetter__"; "__defineSetter__"; "hasOwnProperty";
   "__lookupGetter__"; "__lookupSetter__"; "isPrototypeOf";
   "propertyIsEnumerable"; "toString"; "valueOf"; "__proto__";
   "toLocaleString"; "length"; "name"; "prototype"; "arguments"; "caller";
   "apply"; "bind"; "call"; "at"; "concat"; "copyWithin"; "entries";
   "every"; "fill"; "filter"; "find"; "findIndex"; "findLast";
   "findLastIndex"; "flat"; "flatMap"; "forEach"; "includes"; "indexOf";
   "join"; "keys"; "lastIndexOf"; "map"; "pop"; "push"; "reduce";
   "reduceRight"; "reverse"; "shift"; "slice"; "some"; "sort"; "splice";
   "toReversed"; "toSorted"; "toSpliced"; "unshift"; "values"; "with";
   "anchor"; "big"; "blink"; "bold"; "charAt"; "charCodeAt"; "codePointAt";
   "endsWith"; "fixed"; "fontcolor"; "fontsize"; "isWellFormed"; "italics";
   "link"; "localeCompare"; "match"; "matchAll"; "normalize"; "padEnd";
   "padStart"; "repeat"; "replace"; "replaceAll"; "search"; "small";
   "split"; "startsWith"; "strike"; "sub"; "substr"; "substring"; "sup";
   "toLocaleLowerCase"; "toLocaleUpperCase"; "toLowerCase"; "toUpperCase";
   "toWellFormed"; "trim"; "trimEnd"; "trimLeft"; "trimRight"; "trimStart";
   "toExponential"; "toFixed"; "toPrecision"].

Class Runtime : Type := {
  native_name : string → bool;
  native_standard : ∀ key, In key standard_names → native_name key = true;
  (** [v[key]]. *)
  native_get : heap → value → string → value;
  (** [assignValue(v, key, x)]: the outcome and the objects afterwards. *)
  native_set : heap → value → string → value → result unit * store;
  (** [files[path] = fileData] on the flat map. *)
  native_store :
    heap → gmap string value → string → value → gmap string value;
  (** The value and the objects of a parsed document, one of whose
      members has a native name. *)
  native_parse : heap → json → value * store
}.

Module Heap.

Definition empty_object : js_object := Obj false ∅.
Definition empty_array : js_object := Obj true ∅.

(** The own property [key] of the object that [v] refers to. *)
Definition own (s : store) (v : value) (key : string) : value :=
  match v with
  | VObj l =>
      match s !! l with
      | Some o => default VUndefined (props o !! key)
      | None => VUndefined
      end
  | _ => VUndefined
  end.

(** The object at [l] with its own property [key] set to [v]. *)
Definition define (s : store) (l : loc) (key : string) (v : value) : store :=
  match s !! l with
  | Some o => <[l := Obj (is_array o) (<[key := v]> (props o))]> s
  | None => s
  end.

Definition index_key (i : nat) : string :=
  NilZero.string_of_uint (Nat.to_uint i).

Fixpoint array_props (i : nat) (vs : list value) : gmap string value :=
  match vs with
  | [] => ∅
  | v :: vs' => <[index_key i := v]> (array_props (S i) vs')
  end.

(** The objects that parsing creates for a document when [base] is the
    next free address, and the value that denotes the document. *)
Fixpoint alloc_json (j : json) (base : nat) : value * list js_object :=
  match j with
  | JNull => (VNull, [])
  | JBool b => (VBool b, [])
  | JNum n => (VNum n, [])
  | JStr s => (VStr s, [])
  | JArr items =>
      let '(vs, objs) :=
        (fix go (l : list json) (b : nat) : list value * list js_object :=
           match l with
           | [] => ([], [])
           | x :: l' =>
               let '(v, o1) := alloc_json x b in
               let '(vs, o2) := go l' (b + List.length o1)%nat in
               (v :: vs, o1 ++ o2)
           end) items base in
      (VObj (base + List.length objs)%nat, objs ++ [Obj true (array_props 0 vs)])
  | JObj members =>
      let '(kvs, objs) :=
        (fix go (l : list (string * json)) (b : nat)
           : list (string * value) * list js_object :=
           match l with
           | [] => ([], [])
           | (k, x) :: l' =>
               let '(v, o1) := alloc_json x b in
               let '(kvs, o2) := go l' (b + List.length o1)%nat in
               ((k, v) :: kvs, o1 ++ o2)
           end) members base in
      (VObj (base + List.length objs)%nat,
       objs ++ [Obj false (list_to_map (reverse kvs))])
  end.

Section WithRuntime.
Context {RT : Runtime}.

(** A member that is nothing but an own property: the heap is not
    exotic and the name is not one of the runtime's. *)
Definition ordinary (h : heap) (key : string) : bool :=
  negb (exotic h) && negb (native_name key).

(** [v[key]].  For an ordinary member of an object it is the own
    property, [undefined] when there is none; numbers and booleans have
    no ordinary member, strings none but their characters. *)
Definition getprop (h : heap) (v : value) (key : string) : value :=
  if ordinary h key then
    match v with
    | VObj _ => own (objects h) v key
    | VBool _ | VNum _ => VUndefined
    | VStr _ => if JsString.is_uint key then native_get h v key
                else VUndefined
    | VUndefined | VNull | VNative _ => native_get h v key
    end
  else native_get h v key.

(** [assignValue(v, key, x)], that is [v[key] = x].  An ordinary member
    of an object becomes an own property; anything else is done by the
    runtime and leaves the heap exotic. *)
Definition setprop (h : heap) (v : value) (key : string) (x : value)
  : result unit * heap :=
  match v with
  | VObj l =>
      if ordinary h key
      then (Ok tt, MkHeap (define (objects h) l key x) (exotic h))
      else let '(r, s) := native_set h v key x in (r, MkHeap s true)
  | _ => let '(r, s) := native_set h v key x in (r, MkHeap s true)
  end.

(** [{}] or [[]]. *)
Definition new_object (o : js_object) (h : heap) : value * heap :=
  (VObj (length (objects h)), MkHeap (objects h ++ [o]) (exotic h)).

(** No member of the document, at any depth, has a native name. *)
Fixpoint json_plain (j : json) : bool :=
  match j with
  | JArr items => forallb json_plain items
  | JObj members =>
      forallb (λ '(k, x), negb (native_name k) && json_plain x) members
  | _ => true
  end.

(** The value of a parsed document and the heap that holds it. *)
Definition parsed (h : heap) (j : json) : value * heap :=
  if negb (exotic h) && json_plain j then
    let '(v, objs) := alloc_json j (length (objects h)) in
    (v, MkHeap (objects h ++ objs) (exotic h))
  else
    let '(v, s) := native_parse h j in (v, MkHeap s true).

End WithRuntime.

End Heap.

(** ** The lodash functions the cache uses *)

Module Lodash.
Import Heap.

Definition isObject (v : value) : bool :=
  match v with
  | VObj _ | VNative _ => true
  | _ => false
  end.

(** [reIsUint]: the canonical unsigned decimal numerals. *)
Definition reIsUint (s : string) : bool := JsString.is_uint s.

Definition MAX_SAFE_INTEGER : Z := 9007199254740991%Z.

(** [isIndex(value)] for a string key. *)
Definition isIndex (s : string) : bool :=
  reIsUint s && (JsString.decimal 0 s <? MAX_SAFE_INTEGER)%Z.

Section WithRuntime.
Context {RT : Runtime}.

(** [newValue] in the loop of [baseSet]: the last level receives [v]; a
    level before it keeps the object it holds under the key, or receives
    a new array or plain object, as the next key tells. *)
Definition newValue (h : heap) (nested : value) (key : string)
  (rest : list string) (v : value) : value * heap :=
  match rest with
  | [] => (v, h)
  | next :: _ =>
      let objValue := getprop h nested key in
      if isObject objValue then (objValue, h)
      else new_object (if isIndex next then empty_array else empty_object) h
  end.

(** The loop of [baseSet], from the value [nested] on: while [nested] is
    neither [null] nor [undefined], the level is assigned its new value
    and then read again to go on.  An assignment that throws ends the
    loop. *)
Fixpoint baseSet (h : heap) (nested : value) (path : list string)
  (v : value) : result unit * heap :=
  match path with
  | [] => (Ok tt, h)
  | key :: rest =>
      match nested with
      | VUndefined | VNull => (Ok tt, h)
      | _ =>
          let '(x, h1) := newValue h nested key rest v in
          match setprop h1 nested key x with
          | (Ok _, h2) => baseSet h2 (getprop h2 nested key) rest v
          | (Err e, h2) => (Err e, h2)
          end
      end
  end.

(** [set(object, path, value)]. *)
Definition set (h : heap) (obj : value) (path : list string) (v : value)
  : result unit * heap :=
  if isObject obj then baseSet h obj path v else (Ok tt, h).

(** The loop of [baseGet]: it stops at [null] and [undefined]. *)
Fixpoint walk (h : heap) (v : value) (path : list string) : value :=
  match path with
  | [] => v
  | key :: rest =>
      match v with
      | VUndefined | VNull => VUndefined
      | _ => walk h (getprop h v key) rest
      end
  end.

(** [get(object, path)]; [baseGet] gives [undefined] on an empty path. *)
Definition get (h : heap) (obj : value) (path : list string) : value :=
  match path with
  | [] => VUndefined
  | _ => walk h obj path
  end.

End WithRuntime.

(** [pickBy(object, (value, key) => pred(key))]. *)
Definition pickBy (m : gmap string value) (pred : string → bool)
  : gmap string value :=
  filter (λ kv, pred kv.1 = true) m.

End Lodash.

(** ** The objects of the version-control engine *)

Definition Oid := string.

Record Commit : Type := { sha : Oid; parents : list Oid; tree_id : Oid }.

Record Signature : Type := { sig_name : string; sig_email : string }.

Record TreeEntry : Type :=
  { entry_name : string; entry_path : string; entry_oid : Oid }.

Definition Index := nat.
Definition Remote := string.
Definition Tree := Oid.

(** [Git.Error.CODE.ITEROVER]. *)
Definition ITEROVER : Z := (-31)%Z.

(** The calls the code makes into its collaborators, in the order made. *)
Inductive event : Type :=
| ELock
| EUnlock
| EFetch (remote : string)
| EGetReferenceCommit (name : string)
| EGetCommit (oid : Oid)
| EReset (target : Oid)
| ERimraf (glob : string)
| EOutputJson (file : string)
| ERefreshIndex
| EIndexAddAll
| EIndexWrite
| EIndexWriteTree
| ECreateCommit (ref msg : string) (tree : Oid) (ps : list Oid)
| ERevWalk (start : Oid)
| EMergeCommits (ours theirs : Oid)
| EIndexWriteTreeTo
| EGetRemote (name : string)
| EPush (refspec : string)
| EGetTree (commit : Oid)
| ETreeWalk (tree : Tree)
| EGetBlob (path : string).

(** The collaborators, as operations on a state [E] that holds the
    checkout, the object database, the remote and the gate.  Every
    operation that can reject returns a [result]. *)
Class Engine (E : Type) : Type := {
  (** Modelled from the spec: the Access Gate ([src/lock.js] is not among
      the sources): acquiring and releasing never fail. *)
  lock_lock : E → E;
  lock_unlock : E → E;
  repo_fetch : string → E → result unit * E;
  repo_getReferenceCommit : string → E → result Commit * E;
  repo_getCommit : Oid → E → result Commit * E;
  Reset_reset : Commit → Z → E → result unit * E;
  repo_workdir : E → string;
  rimraf_sync : string → E → result unit * E;
  outputJsonSync : string → json → E → result unit * E;
  repo_refreshIndex : E → result Index * E;
  index_addAll : Index → E → result unit * E;
  index_write : Index → E → result unit * E;
  index_writeTree : Index → E → result Oid * E;
  process_env : E → string → option string;
  repo_createCommit :
    string → Signature → Signature → string → Oid → list Commit →
    E → result Oid * E;
  (** The identifiers that successive [revWalk.next()] calls yield for a
      walk started at the given commit, and the error that ends them. *)
  repo_revwalk : Oid → E → list Oid * js_error;
  Merge_commits : Commit → Commit → E → result Index * E;
  index_hasConflicts : Index → E → bool;
  index_writeTreeTo : Index → E → result Oid * E;
  repo_getRemote : string → E → result Remote * E;
  remote_push : Remote → string → E → result unit * E;
  commit_getTree : Commit → E → result Tree * E;
  (** [tree.walk(true)]: the blob entries, or the error event. *)
  tree_walk : Tree → E → result (list TreeEntry) * E;
  (** [entry.getBlob()] followed by [blob.content()]. *)
  entry_getBlob : TreeEntry → E → result string * E;
  JSON5_parse : string → result json
}.

(** ** The snapshot and the state of a repository instance *)

Record Snapshot : Type :=
  { commitHash : string; object : value; files : gmap string value }.

Inductive Data : Type :=
| DataFiles (m : gmap string value)
| DataObject (v : value).

Record ReadResult : Type := { rr_commitHash : string; rr_data : Data }.

Section Monad.
Context {E : Type}.

Record world : Type :=
  World { env : E; log : list event; js_heap : heap; cache : Snapshot }.

(** Computations that may reject and that act on the world; what was
    done before a rejection stays done. *)
Definition M (A : Type) : Type := world → result A * world.

Definition ret {A} (a : A) : M A := λ w, (Ok a, w).

Definition throw {A} (e : js_error) : M A := λ w, (Err e, w).

Definition bind {A B} (m : M A) (k : A → M B) : M B :=
  λ w, match m w with
       | (Ok a, w') => k a w'
       | (Err e, w') => (Err e, w')
       end.

(** [promise.catch(handler)] and [try { } catch (e) { }]. *)
Definition catch {A} (m : M A) (handler : js_error → M A) : M A :=
  λ w, match m w with
       | (Ok a, w') => (Ok a, w')
       | (Err e, w') => handler e w'
       end.

(** A call into the engine, recorded in the log. *)
Definition call {A} (ev : event) (op : E → result A * E) : M A :=
  λ w, let '(r, e') := op (env w) in
       (r, World e' (log w ++ [ev]) (js_heap w) (cache w)).

(** A call that cannot reject. *)
Definition call_ (ev : event) (op : E → E) : M unit :=
  call ev (λ e, (Ok tt, op e)).

(** Reading the engine state. *)
Definition ask {A} (f : E → A) : M A := λ w, (Ok (f (env w)), w).

(** An allocation in the JavaScript heap. *)
Definition new (o : js_object) : M value :=
  λ w, (Ok (VObj (length (objects (js_heap w)))),
        World (env w) (log w)
              (MkHeap (objects (js_heap w) ++ [o]) (exotic (js_heap w)))
              (cache w)).

Definition get_heap : M heap := λ w, (Ok (js_heap w), w).

Definition put_heap (h : heap) : M unit :=
  λ w, (Ok tt, World (env w) (log w) h (cache w)).

Definition get_cache : M Snapshot := λ w, (Ok (cache w), w).

Definition put_cache (c : Snapshot) : M unit :=
  λ w, (Ok tt, World (env w) (log w) (js_heap w) c).

End Monad.
Arguments world E : clear implicits.
Arguments M E A : clear implicits.

Notation "'let*' x ':=' m 'in' k" := (bind m (λ x, k))
  (at level 10, x binder, m at level 100, k at level 200,
   format "'let*'  x  ':='  m  'in' '//' k").
Notation "m ';;;' k" := (bind m (λ _, k))
  (at level 100, k at level 200, right associativity,
   format "m  ';;;' '//' k").


(** ** src/cache.js *)

Module Cache.
Section WithEngine.
Context {E : Type} `{!Engine E} {RT : Runtime}.

(** The constructor: no commit has this hash, both forms are empty. *)
Definition initial (object0 : value) : Snapshot :=
  {| commitHash := "0000000000000000"; object := object0; files := ∅ |}.

Definition getFileEntries (commit : Commit) : M E (list TreeEntry) :=
  let* tree := call (EGetTree (sha commit)) (commit_getTree commit) in
  let* entries := call (ETreeWalk tree) (tree_walk tree) in
  ret (filter (λ entry, JsString.endsWith (entry_name entry) ".json" = true)
              entries).

(** [JSON5.parse(blob.content())]: the document is allocated in the heap. *)
Definition parse (content : string) : M E value :=
  match JSON5_parse content with
  | Ok j =>
      let* h := get_heap in
      let '(v, h') := Heap.parsed h j in
      put_heap h' ;;;
      ret v
  | Err e => throw e
  end.

(** The key of a document: its path without the [.json] extension. *)
Definition store_path (entry : TreeEntry) : string :=
  JsString.slice_0_neg 5 (entry_path entry).

Definition segments (path : string) : list string :=
  JsString.split "/" path.

(** [files[path] = fileData] on the flat map, an object of its own: an
    ordinary path becomes a key; any other one is stored by the runtime
    ([__proto__] is no key afterwards) and leaves the heap exotic. *)
Definition store_file (files : gmap string value) (path : string)
  (fileData : value) : M E (gmap string value) :=
  let* h := get_heap in
  if Heap.ordinary h path then ret (<[path := fileData]> files)
  else
    put_heap (MkHeap (objects h) true) ;;;
    ret (native_store h files path fileData).

(** [set(object, path.split("/"), fileData)]: it may throw. *)
Definition set_path (object : value) (path : string) (fileData : value)
  : M E unit :=
  let* h := get_heap in
  let '(r, h') := Lodash.set h object (segments path) fileData in
  put_heap h' ;;;
  match r with
  | Ok _ => ret tt
  | Err e => throw e
  end.

(** The body of the loop of [buildData]. *)
Fixpoint buildData_loop (object : value) (files : gmap string value)
  (fileEntries : list TreeEntry) : M E (gmap string value) :=
  match fileEntries with
  | [] => ret files
  | entry :: rest =>
      let* blob := call (EGetBlob (entry_path entry)) (entry_getBlob entry) in
      let* fileData := parse blob in
      let path := store_path entry in
      let* files' := store_file files path fileData in
      set_path object path fileData ;;;
      buildData_loop object files' rest
  end.

Definition buildData (fileEntries : list TreeEntry)
  : M E (value * gmap string value) :=
  let* object := new Heap.empty_object in
  let* files := buildData_loop object ∅ fileEntries in
  ret (object, files).

Definition update (commit : Commit) : M E unit :=
  let* this := get_cache in
  if negb (String.eqb (sha commit) (commitHash this)) then
    let* fileEntries := getFileEntries commit in
    let* r := buildData fileEntries in
    put_cache {| commitHash := sha commit; object := r.1; files := r.2 |}
  else ret tt.

Definition getCommitHash : M E string :=
  let* this := get_cache in ret (commitHash this).

Definition getObject (path : string) : M E value :=
  let* this := get_cache in
  if negb (String.eqb path "") then
    let* h := get_heap in
    ret (Lodash.get h (object this) (segments path))
  else ret (object this).

Definition getFiles (path : string) : M E (gmap string value) :=
  let* this := get_cache in
  if negb (String.eqb path "") then
    ret (Lodash.pickBy (files this) (λ file, JsString.startsWith file path))
  else ret (files this).

End WithEngine.
End Cache.

(** ** src/repo.js *)

Module Repo.
Section WithEngine.
Context {E : Type} `{!Engine E} {RT : Runtime}.

Definition getCommitForUpdateBranch (reference : string) : M E Commit :=
  catch
    (call (EGetReferenceCommit ("refs/remotes/origin/" +:+ reference))
          (repo_getReferenceCommit ("refs/remotes/origin/" +:+ reference)))
    (λ _, throw (new_Error "Invalid or missing update branch")).

Definition getCommitByVersion (version : string) : M E Commit :=
  catch
    (catch
       (call (EGetReferenceCommit ("refs/remotes/origin/" +:+ version))
             (repo_getReferenceCommit ("refs/remotes/origin/" +:+ version)))
       (λ _, call (EGetCommit version) (repo_getCommit version)))
    (λ _, throw (new_Error
                   ("Branch or commit not found: '" +:+ version +:+ "'"))).

Fixpoint outputFiles (fqPath : string) (files : list (string * json))
  : M E unit :=
  match files with
  | [] => ret tt
  | (file, data) :: rest =>
      call (EOutputJson (fqPath +:+ "/" +:+ file +:+ ".json"))
           (outputJsonSync (fqPath +:+ "/" +:+ file +:+ ".json") data) ;;;
      outputFiles fqPath rest
  end.

Definition writeFiles (parentCommit : Commit) (path : string)
  (files : list (string * json)) : M E Oid :=
  call (EReset (sha parentCommit)) (Reset_reset parentCommit 3%Z) ;;;
  let* workdir := ask repo_workdir in
  let fqPath := JsString.slice_0_neg 1 workdir +:+ "/" +:+ path in
  call (ERimraf (fqPath +:+ "/*")) (rimraf_sync (fqPath +:+ "/*")) ;;;
  outputFiles fqPath files ;;;
  let* index := call ERefreshIndex repo_refreshIndex in
  call EIndexAddAll (index_addAll index) ;;;
  call EIndexWrite (index_write index) ;;;
  call EIndexWriteTree (index_writeTree index).

Definition createSignature : M E Signature :=
  let* getenv := ask process_env in
  ret {| sig_name := JsString.or_else (getenv "SIGNATURE_NAME") "Git JSON API";
         sig_email := JsString.or_else (getenv "SIGNATURE_MAIL")
                                       "mail@example.com" |}.

(** The loop of [isAncestor] over what the walk yields. *)
Fixpoint isAncestor_loop (ancestor : Oid) (yielded : list Oid)
  (stop : js_error) : result bool :=
  match yielded with
  | [] =>
      if decide (errno stop = Some ITEROVER) then Ok false else Err stop
  | oid :: rest =>
      if String.eqb ancestor oid then Ok true
      else isAncestor_loop ancestor rest stop
  end.

Definition isAncestor (ancestorCommit commit : Commit) : M E bool :=
  let* walk := call (ERevWalk (sha commit))
                    (λ e, (Ok (repo_revwalk (sha commit) e), e)) in
  match isAncestor_loop (sha ancestorCommit) walk.1 walk.2 with
  | Ok b => ret b
  | Err e => throw e
  end.

Definition createCommit (ref : string) (author committer : Signature)
  (msg : string) (tree : Oid) (ps : list Commit) : M E Oid :=
  call (ECreateCommit ref msg tree (map sha ps))
       (repo_createCommit ref author committer msg tree ps).

Definition getCommit (oid : Oid) : M E Commit :=
  call (EGetCommit oid) (repo_getCommit oid).

Definition getReferenceCommit (name : string) : M E Commit :=
  call (EGetReferenceCommit name) (repo_getReferenceCommit name).

Definition commitAndMerge (parentCommit branchCommit : Commit)
  (treeOid : Oid) (msg : string) : M E string :=
  let* commitSignature := createSignature in
  let* commitOid :=
    createCommit "HEAD" commitSignature commitSignature msg treeOid
                 [parentCommit] in
  let* commit := getCommit commitOid in
  let* ancestor := isAncestor branchCommit commit in
  if ancestor then ret (sha commit)
  else
    let* index := call (EMergeCommits (sha branchCommit) (sha commit))
                       (Merge_commits branchCommit commit) in
    let* conflicts := ask (index_hasConflicts index) in
    if conflicts then throw (new_Error "Merge conflict")
    else
      let* mergeSignature := createSignature in
      let* mergeTreeOid := call EIndexWriteTreeTo (index_writeTreeTo index) in
      let* mergeCommitOid :=
        createCommit "HEAD" mergeSignature mergeSignature "Merge"
                     mergeTreeOid [commit; branchCommit] in
      let* mergeCommit := getCommit mergeCommitOid in
      ret (sha mergeCommit).

Definition pushHeadToOrigin (branch : option string) : M E unit :=
  let* remote := call (EGetRemote "origin") (repo_getRemote "origin") in
  call (EPush ("HEAD:refs/heads/" +:+ JsString.template branch))
       (remote_push remote ("HEAD:refs/heads/" +:+ JsString.template branch)) ;;;
  let* headCommit := getReferenceCommit "HEAD" in
  let* remoteCommit :=
    getReferenceCommit ("refs/remotes/origin/" +:+ JsString.template branch) in
  if negb (String.eqb (sha headCommit) (sha remoteCommit)) then
    throw (new_Error "Push to remote failed")
  else ret tt.

Definition getData (version path : string) (listFiles : bool)
  : M E ReadResult :=
  catch
    (call_ ELock lock_lock ;;;
     call (EFetch "origin") (repo_fetch "origin") ;;;
     let* commit := getCommitByVersion version in
     Cache.update commit ;;;
     call_ EUnlock lock_unlock ;;;
     let* hash := Cache.getCommitHash in
     let* data :=
       (if listFiles
        then let* m := Cache.getFiles path in ret (DataFiles m)
        else let* v := Cache.getObject path in ret (DataObject v)) in
     ret {| rr_commitHash := hash; rr_data := data |})
    (λ error, call_ EUnlock lock_unlock ;;; throw error).

Definition replacePath (parentVersion : string)
  (updateBranch : option string) (path : string)
  (files : list (string * json)) : M E string :=
  catch
    (call_ ELock lock_lock ;;;
     let* parentCommit := getCommitByVersion parentVersion in
     let* branchCommit :=
       getCommitForUpdateBranch
         (JsString.or_else updateBranch parentVersion) in
     let* newTreeOid := writeFiles parentCommit path files in
     let* commitHash :=
       commitAndMerge parentCommit branchCommit newTreeOid
                      ("Update '/" +:+ path +:+ "'") in
     pushHeadToOrigin updateBranch ;;;
     call_ EUnlock lock_unlock ;;;
     ret commitHash)
    (λ error, call_ EUnlock lock_unlock ;;; throw error).

End WithEngine.
End Repo.

(** ** An in-memory engine

    A small engine with a commit store, local references, the heads of
    the origin, trees and blobs.  Its push reports success whether or not
    the origin applies the update, as the comment in [pushHeadToOrigin]
    says of the real one.  The examples below run the code on it. *)

Module MemEngine.

Record mem : Type := Mem {
  m_commits : list Commit;
  m_refs : list (string * Oid);
  m_origin : list (string * Oid);
  m_trees : list (Oid * list TreeEntry);
  m_blobs : list (Oid * string);
  m_online : bool;
  m_accepts : bool;
  m_conflict : bool;
  m_locked : bool
}.

Fixpoint assoc {A} (k : string) (l : list (string * A)) : option A :=
  match l with
  | [] => None
  | (k', a) :: l' => if String.eqb k k' then Some a else assoc k l'
  end.

Definition assign {A} (k : string) (a : A) (l : list (string * A))
  : list (string * A) :=
  (k, a) :: filter (λ kv, negb (String.eqb k kv.1) = true) l.

Definition find_commit (oid : Oid) (cs : list Commit) : option Commit :=
  List.find (λ c, String.eqb oid (sha c)) cs.

Definition not_found (what : string) : js_error :=
  JsError (what +:+ " not found") (Some (-3)%Z).

Definition set_refs (f : list (string * Oid) → list (string * Oid))
  (m : mem) : mem :=
  Mem (m_commits m) (f (m_refs m)) (m_origin m) (m_trees m) (m_blobs m)
      (m_online m) (m_accepts m) (m_conflict m) (m_locked m).

Definition set_locked (b : bool) (m : mem) : mem :=
  Mem (m_commits m) (m_refs m) (m_origin m) (m_trees m) (m_blobs m)
      (m_online m) (m_accepts m) (m_conflict m) b.

Definition fetch (remote : string) (m : mem) : result unit * mem :=
  if m_online m then
    (Ok tt,
     set_refs (λ refs,
                foldr (λ bo acc, assign ("refs/remotes/origin/" +:+ bo.1)
                                        bo.2 acc)
                      refs (m_origin m)) m)
  else (Err (JsError "failed to connect" (Some (-1)%Z)), m).

Definition getCommit (oid : Oid) (m : mem) : result Commit * mem :=
  match find_commit oid (m_commits m) with
  | Some c => (Ok c, m)
  | None => (Err (not_found "object"), m)
  end.

Definition getReferenceCommit (name : string) (m : mem)
  : result Commit * mem :=
  match assoc name (m_refs m) with
  | Some oid => getCommit oid m
  | None => (Err (not_found "reference"), m)
  end.

Definition createCommit (ref : string) (author committer : Signature)
  (msg : string) (tree : Oid) (ps : list Commit) (m : mem)
  : result Oid * mem :=
  let oid := "c" +:+ Heap.index_key (length (m_commits m)) in
  let c := {| sha := oid; parents := map sha ps; tree_id := tree |} in
  (Ok oid,
   Mem (c :: m_commits m) (assign ref oid (m_refs m)) (m_origin m)
       (m_trees m) (m_blobs m) (m_online m) (m_accepts m) (m_conflict m)
       (m_locked m)).

(** The commits reachable from [oid]. *)
Fixpoint reach (fuel : nat) (cs : list Commit) (oid : Oid) : list Oid :=
  match fuel with
  | O => []
  | S fuel' =>
      match find_commit oid cs with
      | Some c => flat_map (reach fuel' cs) (parents c) ++ [oid]
      | None => []
      end
  end.

Definition revwalk (start : Oid) (m : mem) : list Oid * js_error :=
  (reach (S (length (m_commits m))) (m_commits m) start,
   JsError "iteration is over" (Some ITEROVER)).

Definition push (remote : Remote) (refspec : string) (m : mem)
  : result unit * mem :=
  let branch := String.substring 16 (String.length refspec - 16) refspec in
  match assoc "HEAD" (m_refs m), m_accepts m with
  | Some oid, true =>
      (Ok tt,
       Mem (m_commits m)
           (assign ("refs/remotes/origin/" +:+ branch) oid (m_refs m))
           (assign branch oid (m_origin m)) (m_trees m) (m_blobs m)
           (m_online m) (m_accepts m) (m_conflict m) (m_locked m))
  | _, _ => (Ok tt, m)
  end.

(** A parser for the documents of the examples: numerals and [null]. *)
Definition parse (content : string) : result json :=
  if String.eqb content "null" then Ok JNull
  else if negb (String.eqb content "") && JsString.all_digits content
       then Ok (JNum (JsString.decimal 0 content))
       else Err (JsError "JSON5: invalid character" None).

#[global] Instance engine : Engine mem := {|
  lock_lock := set_locked true;
  lock_unlock := set_locked false;
  repo_fetch := fetch;
  repo_getReferenceCommit := getReferenceCommit;
  repo_getCommit := getCommit;
  Reset_reset := λ c _ m, (Ok tt, set_refs (assign "HEAD" (sha c)) m);
  repo_workdir := λ _, "/repo/";
  rimraf_sync := λ _ m, (Ok tt, m);
  outputJsonSync := λ _ _ m, (Ok tt, m);
  repo_refreshIndex := λ m, (Ok 0, m);
  index_addAll := λ _ m, (Ok tt, m);
  index_write := λ _ m, (Ok tt, m);
  index_writeTree := λ _ m,
    (Ok ("t" +:+ Heap.index_key (length (m_commits m))), m);
  process_env := λ _ _, None;
  repo_createCommit := createCommit;
  repo_revwalk := revwalk;
  Merge_commits := λ _ _ m, (Ok 1, m);
  index_hasConflicts := λ _ m, m_conflict m;
  index_writeTreeTo := λ _ m,
    (Ok ("m" +:+ Heap.index_key (length (m_commits m))), m);
  repo_getRemote := λ name m,
    if String.eqb name "origin" then (Ok "origin", m)
    else (Err (not_found "remote"), m);
  remote_push := push;
  commit_getTree := λ c m, (Ok (tree_id c), m);
  tree_walk := λ t m,
    match assoc t (m_trees m) with
    | Some entries => (Ok entries, m)
    | None => (Err (not_found "tree"), m)
    end;
  entry_getBlob := λ entry m,
    match assoc (entry_oid entry) (m_blobs m) with
    | Some content => (Ok content, m)
    | None => (Err (not_found "blob"), m)
    end;
  JSON5_parse := parse
|}.

(** A runtime for the examples, which use ordinary members only: a
    native read gives a value of the runtime, a native write leaves the
    objects as they are. *)
Definition runtime : Runtime := {|
  native_name := λ key, existsb (String.eqb key) standard_names;
  native_standard := λ key Hin,
    proj2 (existsb_exists (String.eqb key) standard_names)
      (ex_intro _ key (conj Hin (String.eqb_refl key)));
  native_get := λ _ _ _, VNative 0;
  native_set := λ h _ _ _, (Ok tt, objects h);
  native_store := λ _ files _ _, files;
  native_parse := λ h j,
    let '(v, objs) := Heap.alloc_json j (length (objects h)) in
    (v, objects h ++ objs)
|}.

(** A repository whose origin has [master] at [c1] and where [c2], a
    child of [c0] like [c1], is what the remote-tracking [topic] holds:
    [topic] has diverged from [c1]. *)
Definition c0 : Commit := {| sha := "c0"; parents := []; tree_id := "t0" |}.
Definition c1 : Commit :=
  {| sha := "c1"; parents := ["c0"]; tree_id := "t1" |}.
Definition c2 : Commit :=
  {| sha := "c2"; parents := ["c0"]; tree_id := "t2" |}.

Definition entry (path name oid : string) : TreeEntry :=
  {| entry_name := name; entry_path := path; entry_oid := oid |}.

Definition repo0 : mem := {|
  m_commits := [c2; c1; c0];
  m_refs := [("HEAD", "c1"); ("refs/remotes/origin/master", "c1");
             ("refs/remotes/origin/topic", "c2")];
  m_origin := [("master", "c1"); ("topic", "c2")];
  m_trees :=
    [("t0", [entry "rootFile.json" "rootFile.json" "b1"]);
     ("t1", [entry "rootFile.json" "rootFile.json" "b1";
             entry "dir/nestedFile1.json" "nestedFile1.json" "b2";
             entry "README.md" "README.md" "b0"]);
     ("t2", [entry "a.json" "a.json" "b1";
             entry "a/b.json" "b.json" "b2"])];
  m_blobs := [("b0", "# readme"); ("b1", "1"); ("b2", "2")];
  m_online := true;
  m_accepts := true;
  m_conflict := false;
  m_locked := false
|}.

(** A fresh repository instance on [repo0]: the cache of the
    constructor, whose empty nested object is the first of the heap. *)
Definition world0 : world mem :=
  World repo0 [] (MkHeap [Heap.empty_object] false) (Cache.initial (VObj 0)).

End MemEngine.

(** ** Predicates used to state the properties *)

(** [m] relates the world it starts in to the world it ends in by [R]. *)
Definition keeps {E A} (R : world E → world E → Prop) (m : M E A) : Prop :=
  ∀ w, R w (m w).2.
Definition is_fetch (ev : event) : bool :=
  match ev with
  | EFetch _ => true
  | _ => false
  end.

Definition is_push (ev : event) : bool :=
  match ev with
  | EPush _ => true
  | _ => false
  end.

(** Events of a snapshot rebuild. *)
Definition is_rebuild (ev : event) : bool :=
  match ev with
  | EGetTree _ | ETreeWalk _ | EGetBlob _ => true
  | _ => false
  end.

(** What a read returns, given the cached snapshot and the heap. *)
Definition read_result {RT : Runtime} (c : Snapshot) (h : heap) (path : string)
  (listFiles : bool) : ReadResult :=
  {| rr_commitHash := commitHash c;
     rr_data :=
       if listFiles then
         DataFiles (if negb (String.eqb path "")
                    then Lodash.pickBy (files c)
                                       (λ file, JsString.startsWith file path)
                    else files c)
       else
         DataObject (if negb (String.eqb path "")
                     then Lodash.get h (object c) (Cache.segments path)
                     else object c) |}.

Definition ok_or {A} (d : A) (r : result A) : A :=
  match r with
  | Ok a => a
  | Err _ => d
  end.

(** What the code relies on from the engine: the commit read back under
    the identifier that [createCommit] returned has that identifier and
    the parents it was created with. *)
Definition createCommit_law (E : Type) `{!Engine E} : Prop :=
  ∀ ref author committer msg tree ps (e e' : E) oid,
    repo_createCommit ref author committer msg tree ps e = (Ok oid, e') →
    ∀ c e'', repo_getCommit oid e' = (Ok c, e'') →
             sha c = oid ∧ parents c = map sha ps.

(** [a] is a proper prefix of [b], segment by segment. *)
Definition strict_prefix (a b : list string) : Prop :=
  ∃ x r, b = a ++ x :: r.



(** The nested object as a tree of directories.

    While [buildData] runs without a path conflict, the nested object is a
    tree: [D] maps the path of every directory level to the object that
    [set] created for it, and [F] is the flat map built so far.  Every
    property of a directory object is either a deeper directory or the
    document that [F] holds under the joined path. *)

Definition child_ok (F : gmap string value) (D : gmap (list string) loc)
  (q : list string) (v : value) : Prop :=
  (∃ l, D !! q = Some l ∧ v = VObj l) ∨
  (D !! q = None ∧ ∃ k, Cache.segments k = q ∧ F !! k = Some v).

Record tree_inv (h : store) (root : loc) (F : gmap string value)
  (D : gmap (list string) loc) (pending : list (list string)) : Prop := {
  inv_root : D !! [] = Some root;
  inv_inj : ∀ p q l, D !! p = Some l → D !! q = Some l → p = q;
  inv_dir : ∀ p l, D !! p = Some l →
    ∃ o, h !! l = Some o ∧
         ∀ key v, props o !! key = Some v → child_ok F D (p ++ [key]) v;
  inv_parent : ∀ p key l', D !! (p ++ [key]) = Some l' →
    ∃ l o, D !! p = Some l ∧ h !! l = Some o ∧
           props o !! key = Some (VObj l');
  inv_file : ∀ k v, F !! k = Some v →
    ∃ p key l o, Cache.segments k = p ++ [key] ∧ D !! p = Some l ∧
                 h !! l = Some o ∧ props o !! key = Some v ∧
                 D !! (p ++ [key]) = None;
  inv_used : ∀ p l, D !! p = Some l → p ≠ [] →
    (∃ k, is_Some (F !! k) ∧ strict_prefix p (Cache.segments k)) ∨
    (∃ s, s ∈ pending ∧ strict_prefix p s)
}.




(** A path none of whose keys is a name of the runtime. *)
Definition plain_path {RT : Runtime} (p : list string) : Prop :=
  Forall (λ key, native_name key = false) p.

(** The keys of [F] split into plain paths. *)
Definition plain_keys {RT : Runtime} (F : gmap string value) : Prop :=
  ∀ k, is_Some (F !! k) → plain_path (Cache.segments k).

(** Inputs of the runs on the in-memory engine. *)


(** The two documents of the tree of [c1], and a file that is no JSON5. *)
Definition separate : list TreeEntry :=
  [MemEngine.entry "rootFile.json" "rootFile.json" "b1";
   MemEngine.entry "dir/nestedFile1.json" "nestedFile1.json" "b2"].


(** ** Predicates on the log *)

(** The collaborator a call goes to: the gate, the remote for a fetch, a
    lookup of a commit, the working tree and its index, commit creation,
    the revision walk, the merge, the remote for a push, trees and
    blobs. *)
Inductive kind : Type :=
| KGate
| KFetch
| KLookup
| KWorktree
| KCommit
| KWalk
| KMerge
| KPush
| KTree.

#[global] Instance kind_eq_dec : EqDecision kind.
Proof. solve_decision. Defined.

Definition kind_of (ev : event) : kind :=
  match ev with
  | ELock | EUnlock => KGate
  | EFetch _ => KFetch
  | EGetReferenceCommit _ | EGetCommit _ => KLookup
  | EReset _ | ERimraf _ | EOutputJson _ | ERefreshIndex | EIndexAddAll
  | EIndexWrite | EIndexWriteTree => KWorktree
  | ECreateCommit _ _ _ _ => KCommit
  | ERevWalk _ => KWalk
  | EMergeCommits _ _ | EIndexWriteTreeTo => KMerge
  | EGetRemote _ | EPush _ => KPush
  | EGetTree _ | ETreeWalk _ | EGetBlob _ => KTree
  end.

(** The kinds listed in [ks], as a test. *)
Definition among (ks : list kind) (k : kind) : bool := bool_decide (k ∈ ks).

Definition is_ok {A} (r : result A) : bool :=
  match r with
  | Ok _ => true
  | Err _ => false
  end.

(** [b] is [a] with more events, all of them satisfying [P], and possibly
    another heap and cache. *)
Definition extends_by {E} (P : event → Prop) (a b : world E) : Prop :=
  ∃ evs, log b = log a ++ evs ∧ Forall P evs.

(** The events of [m] are events satisfying [P] followed by a tail that
    [T] accepts, given whether [m] succeeded. *)
Definition ends_with {E A} (P : event → Prop)
  (T : bool → list event → Prop) (m : M E A) : Prop :=
  ∀ w, ∃ pre post,
    log (m w).2 = log w ++ pre ++ post ∧ Forall P pre ∧ T (is_ok (m w).1) post.

(** The calls of a complete [pushHeadToOrigin]. *)
Definition push_events (branch : option string) : list event :=
  [EGetRemote "origin";
   EPush ("HEAD:refs/heads/" +:+ JsString.template branch);
   EGetReferenceCommit "HEAD";
   EGetReferenceCommit ("refs/remotes/origin/" +:+ JsString.template branch)].

(** The calls of a complete [writeFiles] into the checkout at [workdir]. *)
Definition writeFiles_events (workdir : string) (parentCommit : Commit)
  (path : string) (newFiles : list (string * json)) : list event :=
  let fqPath := JsString.slice_0_neg 1 workdir +:+ "/" +:+ path in
  [EReset (sha parentCommit); ERimraf (fqPath +:+ "/*")] ++
  map (λ f, EOutputJson (fqPath +:+ "/" +:+ f.1 +:+ ".json")) newFiles ++
  [ERefreshIndex; EIndexAddAll; EIndexWrite; EIndexWriteTree].

(** [repo0] with a merge that conflicts. *)
Definition repo_conflict : MemEngine.mem :=
  MemEngine.Mem (MemEngine.m_commits MemEngine.repo0)
                (MemEngine.m_refs MemEngine.repo0)
                (MemEngine.m_origin MemEngine.repo0)
                (MemEngine.m_trees MemEngine.repo0)
                (MemEngine.m_blobs MemEngine.repo0) true true true false.

Definition world_conflict : world MemEngine.mem :=
  World repo_conflict [] (MkHeap [Heap.empty_object] false)
        (Cache.initial (VObj 0)).

(** The signature of [createSignature] in the state [e]. *)
Definition signature_of {E} `{!Engine E} (e : E) : Signature :=
  {| sig_name := JsString.or_else (process_env e "SIGNATURE_NAME")
                                  "Git JSON API";
     sig_email := JsString.or_else (process_env e "SIGNATURE_MAIL")
                                   "mail@example.com" |}.

(** A value that is no reference to an object below the address [b],
    and no value of the runtime. *)
Definition value_from (b : nat) (v : value) : Prop :=
  match v with
  | VObj l => b ≤ l
  | VNative _ => False
  | _ => True
  end.

(** The objects of [h] from the address [b] on hold no reference to an
    object below [b], and no value of the runtime. *)
Definition closed_from (b : nat) (h : store) : Prop :=
  ∀ l o, b ≤ l → h !! l = Some o →
         ∀ key v, props o !! key = Some v → value_from b v.

(** An entry whose store path, and each segment of it, is no name of the
    runtime, and whose blob, whenever it parses, is a document whose
    member names are none of the runtime's. *)
Definition plain_entry {E} `{!Engine E} {RT : Runtime} (entry : TreeEntry)
  : Prop :=
  native_name (Cache.store_path entry) = false ∧
  plain_path (Cache.segments (Cache.store_path entry)) ∧
  ∀ e content j,
    (entry_getBlob entry e).1 = Ok content →
    JSON5_parse content = Ok j → Heap.json_plain j = true.

(** * Properties *)

(** ** Running binds and handlers *)

Section MonadFacts.
Context {E : Type}.

Lemma bind_inv {A B} (m : M E A) (k : A → M E B) w r w' :
  bind m k w = (r, w') →
  (∃ a w1, m w = (Ok a, w1) ∧ k a w1 = (r, w')) ∨
  (∃ e, m w = (Err e, w') ∧ r = Err e).
Proof.
  unfold bind. destruct (m w) as [[a|e] w1]; intros H.
  - left. eauto.
  - right. inversion H; subst. eauto.
Qed.

Lemma bind_ok_inv {A B} (m : M E A) (k : A → M E B) w b w' :
  bind m k w = (Ok b, w') →
  ∃ a w1, m w = (Ok a, w1) ∧ k a w1 = (Ok b, w').
Proof.
  intros H. apply bind_inv in H as [H|[e [_ H]]]; [done | discriminate].
Qed.

Lemma bind_ok {A B} (m : M E A) (k : A → M E B) w a w1 :
  m w = (Ok a, w1) → bind m k w = k a w1.
Proof. intros H. unfold bind. by rewrite H. Qed.

Lemma call_run {A} ev (op : E → result A * E) (w : world E) :
  call ev op w =
  ((op (env w)).1,
   World (op (env w)).2 (log w ++ [ev]) (js_heap w) (cache w)).
Proof. unfold call. by destruct (op (env w)). Qed.

End MonadFacts.

(** ** What a computation leaves alone

    A relation [R] between the world before and after, closed under
    sequencing, that every engine call with an admissible event
    respects; a computation built from such calls respects it too. *)

Section Keeps.
Context {E : Type} (R : world E → world E → Prop) (okev : event → Prop).
Hypothesis R_refl : ∀ w, R w w.
Hypothesis R_trans : ∀ a b c, R a b → R b c → R a c.
Hypothesis R_call :
  ∀ w e' ev, okev ev → R w (World e' (log w ++ [ev]) (js_heap w) (cache w)).

Lemma keeps_ret {A} (a : A) : keeps R (ret a).
Proof. intros w. apply R_refl. Qed.

Lemma keeps_throw {A} e : keeps R (@throw E A e).
Proof. intros w. apply R_refl. Qed.

Lemma keeps_ask {A} (f : E → A) : keeps R (ask f).
Proof. intros w. apply R_refl. Qed.

Lemma keeps_bind {A B} (m : M E A) (k : A → M E B) :
  keeps R m → (∀ a, keeps R (k a)) → keeps R (bind m k).
Proof.
  intros Hm Hk w. unfold bind. specialize (Hm w).
  destruct (m w) as [[a|e] w1]; simpl in *; [|done].
  eapply R_trans; [exact Hm | apply Hk].
Qed.

Lemma keeps_catch {A} (m : M E A) (handler : js_error → M E A) :
  keeps R m → (∀ e, keeps R (handler e)) → keeps R (catch m handler).
Proof.
  intros Hm Hk w. unfold catch. specialize (Hm w).
  destruct (m w) as [[a|e] w1]; simpl in *; [done|].
  eapply R_trans; [exact Hm | apply Hk].
Qed.

Lemma keeps_call {A} ev (op : E → result A * E) :
  okev ev → keeps R (call ev op).
Proof. intros Hev w. rewrite call_run. simpl. by apply R_call. Qed.

Lemma keeps_call_ ev (op : E → E) : okev ev → keeps R (call_ ev op).
Proof. intros Hev. by apply keeps_call. Qed.

End Keeps.

(** The events of the write path satisfy any [okev] that admits every
    event other than a fetch or a push, and the push it makes. *)
Section KeepsRepo.
Context {E : Type} `{!Engine E} {RT : Runtime}.
Context (R : world E → world E → Prop) (okev : event → Prop).
Hypothesis R_refl : ∀ w, R w w.
Hypothesis R_trans : ∀ a b c, R a b → R b c → R a c.
Hypothesis R_call :
  ∀ w e' ev, okev ev → R w (World e' (log w ++ [ev]) (js_heap w) (cache w)).
Hypothesis okev_other :
  ∀ ev, is_fetch ev = false → is_push ev = false → okev ev.

Local Ltac keeps_leaf :=
  first
    [ apply (keeps_ret R R_refl)
    | apply (keeps_throw R R_refl)
    | apply (keeps_ask R R_refl)
    | apply (keeps_call_ R okev R_call); by apply okev_other
    | apply (keeps_call R okev R_call); by apply okev_other ].

Local Ltac keeps_seq lem :=
  apply (keeps_bind R R_trans); [lem | intros ?].

Local Ltac keeps_step :=
  first [ keeps_leaf | keeps_seq keeps_leaf ].

Lemma keeps_getCommitByVersion version :
  keeps R (Repo.getCommitByVersion version).
Proof.
  unfold Repo.getCommitByVersion.
  apply (keeps_catch R R_trans); [|intros ?; keeps_leaf].
  apply (keeps_catch R R_trans); [|intros ?]; keeps_leaf.
Qed.

Lemma keeps_getCommitForUpdateBranch reference :
  keeps R (Repo.getCommitForUpdateBranch reference).
Proof.
  unfold Repo.getCommitForUpdateBranch.
  apply (keeps_catch R R_trans); [|intros ?]; keeps_leaf.
Qed.

Lemma keeps_outputFiles fqPath files : keeps R (Repo.outputFiles fqPath files).
Proof.
  induction files as [|[file data] rest IH]; simpl; [keeps_leaf|].
  keeps_step. exact IH.
Qed.

Lemma keeps_writeFiles parentCommit path files :
  keeps R (Repo.writeFiles parentCommit path files).
Proof.
  unfold Repo.writeFiles. do 3 keeps_step.
  keeps_seq ltac:(apply keeps_outputFiles).
  repeat keeps_step.
Qed.

Lemma keeps_createSignature : keeps R Repo.createSignature.
Proof. unfold Repo.createSignature. repeat keeps_step. Qed.

Lemma keeps_isAncestor a c : keeps R (Repo.isAncestor a c).
Proof.
  unfold Repo.isAncestor. keeps_step.
  destruct (Repo.isAncestor_loop _ _ _); keeps_leaf.
Qed.

Lemma keeps_commitAndMerge parentCommit branchCommit treeOid msg :
  keeps R (Repo.commitAndMerge parentCommit branchCommit treeOid msg).
Proof.
  unfold Repo.commitAndMerge, Repo.createCommit, Repo.getCommit.
  keeps_seq ltac:(apply keeps_createSignature).
  do 2 keeps_step.
  keeps_seq ltac:(apply keeps_isAncestor).
  destruct a2; [keeps_leaf|].
  do 2 keeps_step.
  destruct a3; [keeps_leaf|].
  keeps_seq ltac:(apply keeps_createSignature).
  repeat keeps_step.
Qed.

Lemma keeps_pushHeadToOrigin branch :
  okev (EPush ("HEAD:refs/heads/" +:+ JsString.template branch)) →
  keeps R (Repo.pushHeadToOrigin branch).
Proof.
  intros Hpush. unfold Repo.pushHeadToOrigin, Repo.getReferenceCommit.
  keeps_step.
  keeps_seq ltac:(by apply (keeps_call R okev R_call)).
  do 2 keeps_step.
  destruct (negb _); keeps_leaf.
Qed.

Lemma keeps_replacePath parentVersion updateBranch path files :
  okev (EPush ("HEAD:refs/heads/" +:+ JsString.template updateBranch)) →
  keeps R (Repo.replacePath parentVersion updateBranch path files).
Proof.
  intros Hpush. unfold Repo.replacePath.
  apply (keeps_catch R R_trans); [|intros ?; repeat keeps_step].
  keeps_step.
  keeps_seq ltac:(apply keeps_getCommitByVersion).
  keeps_seq ltac:(apply keeps_getCommitForUpdateBranch).
  keeps_seq ltac:(apply keeps_writeFiles).
  keeps_seq ltac:(apply keeps_commitAndMerge).
  keeps_seq ltac:(by apply keeps_pushHeadToOrigin).
  repeat keeps_step.
Qed.

End KeepsRepo.

(** The events of the read path after its fetch satisfy any [okev] that
    admits every event other than a fetch, for a relation that ignores the
    heap and the cache. *)
Section KeepsRead.
Context {E : Type} `{!Engine E} {RT : Runtime}.
Context (R : world E → world E → Prop) (okev : event → Prop).
Hypothesis R_refl : ∀ w, R w w.
Hypothesis R_trans : ∀ a b c, R a b → R b c → R a c.
Hypothesis R_call :
  ∀ w e' ev, okev ev → R w (World e' (log w ++ [ev]) (js_heap w) (cache w)).
Hypothesis R_state : ∀ w h c, R w (World (env w) (log w) h c).
Hypothesis okev_other : ∀ ev, is_fetch ev = false → okev ev.

Local Ltac keeps_leaf :=
  first
    [ apply (keeps_ret R R_refl)
    | apply (keeps_throw R R_refl)
    | apply (keeps_ask R R_refl)
    | apply (keeps_call_ R okev R_call); by apply okev_other
    | apply (keeps_call R okev R_call); by apply okev_other
    | (intros w; apply R_state)
    | (intros w; apply R_refl) ].

Local Ltac keeps_seq lem :=
  apply (keeps_bind R R_trans); [lem | intros ?].

Lemma keeps_parse content : keeps R (Cache.parse content).
Proof.
  unfold Cache.parse. destruct (JSON5_parse content) as [j|e]; [|keeps_leaf].
  keeps_seq keeps_leaf.
  destruct (Heap.parsed a j) as [v h'].
  keeps_seq keeps_leaf. keeps_leaf.
Qed.

Lemma keeps_store_file F path fileData :
  keeps R (Cache.store_file F path fileData).
Proof.
  unfold Cache.store_file. keeps_seq keeps_leaf.
  destruct (Heap.ordinary _ _); [keeps_leaf|].
  keeps_seq keeps_leaf. keeps_leaf.
Qed.

Lemma keeps_set_path object path fileData :
  keeps R (Cache.set_path object path fileData).
Proof.
  unfold Cache.set_path. keeps_seq keeps_leaf.
  destruct (Lodash.set _ _ _ _) as [r h'].
  keeps_seq keeps_leaf. destruct r; keeps_leaf.
Qed.

Lemma keeps_buildData_loop object F fileEntries :
  keeps R (Cache.buildData_loop object F fileEntries).
Proof.
  revert F. induction fileEntries as [|entry rest IH]; intros F; simpl;
    [keeps_leaf|].
  keeps_seq keeps_leaf.
  keeps_seq ltac:(apply keeps_parse).
  keeps_seq ltac:(apply keeps_store_file).
  keeps_seq ltac:(apply keeps_set_path). apply IH.
Qed.

Lemma keeps_update commit : keeps R (Cache.update commit).
Proof.
  unfold Cache.update. keeps_seq keeps_leaf.
  destruct (negb _); [|keeps_leaf].
  unfold Cache.getFileEntries, Cache.buildData.
  apply (keeps_bind R R_trans); [|intros ?].
  { keeps_seq keeps_leaf. keeps_seq keeps_leaf. keeps_leaf. }
  apply (keeps_bind R R_trans); [|intros ?; keeps_leaf].
  keeps_seq keeps_leaf.
  keeps_seq ltac:(apply keeps_buildData_loop). keeps_leaf.
Qed.

(** What follows the fetch in [getData], and its handler. *)
Lemma keeps_getData_rest version path (listFiles : bool) :
  keeps R
    (catch
       (let* commit := Repo.getCommitByVersion version in
        Cache.update commit ;;;
        call_ EUnlock lock_unlock ;;;
        let* hash := Cache.getCommitHash in
        let* data :=
          (if listFiles
           then let* m := Cache.getFiles path in ret (DataFiles m)
           else let* v := Cache.getObject path in ret (DataObject v)) in
        ret {| rr_commitHash := hash; rr_data := data |})
       (λ error, call_ EUnlock lock_unlock ;;; throw error)).
Proof.
  apply (keeps_catch R R_trans);
    [|intros ?; keeps_seq keeps_leaf; keeps_leaf].
  keeps_seq ltac:(apply (keeps_getCommitByVersion R okev); auto).
  keeps_seq ltac:(apply keeps_update).
  keeps_seq keeps_leaf.
  unfold Cache.getCommitHash, Cache.getFiles, Cache.getObject.
  apply (keeps_bind R R_trans); [keeps_seq keeps_leaf; keeps_leaf | intros ?].
  apply (keeps_bind R R_trans); [|intros ?; keeps_leaf].
  destruct listFiles.
  - apply (keeps_bind R R_trans); [|intros ?; keeps_leaf].
    keeps_seq keeps_leaf. destruct (negb _); keeps_leaf.
  - apply (keeps_bind R R_trans); [|intros ?; keeps_leaf].
    keeps_seq keeps_leaf. destruct (negb _); [|keeps_leaf].
    keeps_seq keeps_leaf. keeps_leaf.
Qed.

End KeepsRead.

(** ** The write path: what it calls and what it leaves alone *)

Section WriteEvents.
Context {E : Type} `{!Engine E} {RT : Runtime}.

(** The events of a write all satisfy [P], when [P] admits the push the
    write makes and every event that is neither a fetch nor a push. *)
Lemma replacePath_events (P : event → Prop) parentVersion updateBranch path
  files (w : world E) :
  (∀ ev, is_fetch ev = false → is_push ev = false → P ev) →
  P (EPush ("HEAD:refs/heads/" +:+ JsString.template updateBranch)) →
  ∃ evs,
    log (Repo.replacePath parentVersion updateBranch path files w).2
    = log w ++ evs ∧ Forall P evs.
Proof.
  intros Hother Hpush.
  apply (keeps_replacePath
           (λ a b, ∃ evs, log b = log a ++ evs ∧ Forall P evs) P); try done.
  - intros a. exists []. by rewrite app_nil_r.
  - intros a b c (e1 & H1 & F1) (e2 & H2 & F2). exists (e1 ++ e2).
    rewrite H2, H1, app_assoc. split; [done | by apply Forall_app].
  - intros a e' ev Hev. exists [ev]. simpl. split; [done | by constructor].
Qed.

(** C10: a call to [replacePath], whether it succeeds or fails, leaves
    the snapshot cache as it was: the commit hash, the nested object
    and the flat map are the same before and after, and so is the heap
    that holds their documents. *)
Theorem replacePath_leaves_cache parentVersion updateBranch path newFiles
  (w : world E) :
  let w' := (Repo.replacePath parentVersion updateBranch path newFiles w).2 in
  commitHash (cache w') = commitHash (cache w) ∧
  object (cache w') = object (cache w) ∧
  files (cache w') = files (cache w) ∧
  js_heap w' = js_heap w.
Proof.
  simpl.
  assert (cache (Repo.replacePath parentVersion updateBranch path newFiles w).2
          = cache w ∧
          js_heap (Repo.replacePath parentVersion updateBranch path newFiles w).2
          = js_heap w) as [Hc Hh].
  { apply (keeps_replacePath
             (λ a b, cache b = cache a ∧ js_heap b = js_heap a)
             (λ _, True)); try done.
    intros a b c [H1 H2] [H3 H4]. split; congruence. }
  by rewrite Hc, Hh.
Qed.

(** C8, on the write path: [replacePath] resolves its version tokens
    without any fetch; no event of a write is a fetch. *)
Theorem replacePath_never_fetches parentVersion updateBranch path files
  (w : world E) :
  ∃ evs,
    log (Repo.replacePath parentVersion updateBranch path files w).2
    = log w ++ evs ∧
    Forall (λ ev, is_fetch ev = false) evs.
Proof. by apply replacePath_events. Qed.

(** Without an update branch, the only push a write can make is one to
    the branch named [undefined]. *)
Lemma replacePath_pushes_undefined parentVersion path files (w : world E) :
  ∃ evs,
    log (Repo.replacePath parentVersion None path files w).2
    = log w ++ evs ∧
    Forall (λ ev, ∀ refspec, ev = EPush refspec →
                             refspec = "HEAD:refs/heads/undefined") evs.
Proof.
  apply replacePath_events.
  - intros ev _ Hp refspec ->. discriminate.
  - intros refspec [= <-]. done.
Qed.

(** Without an update branch, the update-branch commit is resolved from
    the parent version token. *)
Lemma replacePath_branch_fallback parentVersion :
  Repo.getCommitForUpdateBranch (E := E)
    (JsString.or_else None parentVersion)
  = Repo.getCommitForUpdateBranch parentVersion.
Proof. reflexivity. Qed.

End WriteEvents.

(** ** Version resolution and push verification *)

Section Resolution.
Context {E : Type} `{!Engine E} {RT : Runtime}.

(** C7: resolving a version token first looks it up as a
    remote-tracking branch; only when that lookup fails does it look the
    token up as a commit identifier; when both fail the operation fails
    with the error whose message carries the token. *)
Theorem getCommitByVersion_resolution (version : string) (w : world E) :
  let ref := "refs/remotes/origin/" +:+ version in
  let after evs e := World e (log w ++ evs) (js_heap w) (cache w) in
  match repo_getReferenceCommit ref (env w) with
  | (Ok c, e1) =>
      Repo.getCommitByVersion version w
      = (Ok c, after [EGetReferenceCommit ref] e1)
  | (Err _, e1) =>
      match repo_getCommit version e1 with
      | (Ok c, e2) =>
          Repo.getCommitByVersion version w
          = (Ok c, after [EGetReferenceCommit ref; EGetCommit version] e2)
      | (Err _, e2) =>
          Repo.getCommitByVersion version w
          = (Err (new_Error
                    ("Branch or commit not found: '" +:+ version +:+ "'")),
             after [EGetReferenceCommit ref; EGetCommit version] e2)
      end
  end.
Proof.
  simpl. unfold Repo.getCommitByVersion, catch, throw.
  rewrite call_run.
  destruct (repo_getReferenceCommit _ (env w)) as [[c|e] e1]; simpl; [done|].
  rewrite call_run. simpl.
  destruct (repo_getCommit version e1) as [[c|e'] e2]; simpl;
    by rewrite <- app_assoc.
Qed.

(** The push step: once the remote is found and the push has returned,
    [pushHeadToOrigin] resolves the local head and then the
    remote-tracking reference of the pushed branch; with [headCommit]
    and [remoteCommit] what these two lookups return, it fails with the
    error "Push to remote failed" exactly when their identifiers differ,
    and succeeds exactly when they are equal. *)
Lemma pushHeadToOrigin_verifies (branch : option string) (w : world E)
  remote e1 e2 headCommit e3 remoteCommit e4 :
  repo_getRemote "origin" (env w) = (Ok remote, e1) →
  remote_push remote ("HEAD:refs/heads/" +:+ JsString.template branch) e1
  = (Ok tt, e2) →
  repo_getReferenceCommit "HEAD" e2 = (Ok headCommit, e3) →
  repo_getReferenceCommit
    ("refs/remotes/origin/" +:+ JsString.template branch) e3
  = (Ok remoteCommit, e4) →
  let r := Repo.pushHeadToOrigin branch w in
  log r.2
  = log w ++
    [EGetRemote "origin";
     EPush ("HEAD:refs/heads/" +:+ JsString.template branch);
     EGetReferenceCommit "HEAD";
     EGetReferenceCommit
       ("refs/remotes/origin/" +:+ JsString.template branch)] ∧
  (r.1 = Err (new_Error "Push to remote failed")
   ↔ sha headCommit ≠ sha remoteCommit) ∧
  (r.1 = Ok tt ↔ sha headCommit = sha remoteCommit).
Proof.
  intros Hremote Hpush Hhead Hrem. simpl.
  unfold Repo.pushHeadToOrigin, Repo.getReferenceCommit, bind.
  rewrite call_run, Hremote. simpl.
  rewrite call_run. simpl. rewrite Hpush. simpl.
  rewrite call_run. simpl. rewrite Hhead. simpl.
  rewrite call_run. simpl. rewrite Hrem. simpl.
  destruct (String.eqb_spec (sha headCommit) (sha remoteCommit)) as [Heq|Hne];
    simpl.
  - split; [by rewrite <- !app_assoc|]. split; split; done.
  - split; [by rewrite <- !app_assoc|]. split; split; done.
Qed.

(** A write succeeds only through a successful push verification, after
    which nothing but the release of the gate happens. *)
Lemma replacePath_ok_pushed parentVersion updateBranch path newFiles
  (w w' : world E) hash :
  Repo.replacePath parentVersion updateBranch path newFiles w = (Ok hash, w') →
  ∃ w1 w2,
    Repo.pushHeadToOrigin updateBranch w1 = (Ok tt, w2) ∧
    w' = World (lock_unlock (env w2)) (log w2 ++ [EUnlock])
               (js_heap w2) (cache w2).
Proof.
  unfold Repo.replacePath, catch.
  destruct (bind _ _ w) as [[a|e] w0] eqn:Hbody; intros H.
  2:{ unfold bind, call_, call in H. discriminate. }
  inversion H; subst a w0; clear H.
  apply bind_ok_inv in Hbody as ([] & w1 & _ & H).
  apply bind_ok_inv in H as (parentCommit & wp & _ & H).
  apply bind_ok_inv in H as (branchCommit & wb & _ & H).
  apply bind_ok_inv in H as (treeOid & w4 & _ & H).
  apply bind_ok_inv in H as (commitHash' & w5 & _ & H).
  apply bind_ok_inv in H as ([] & w6 & Hpush & H).
  apply bind_ok_inv in H as ([] & w7 & Hunlock & H).
  unfold ret in H. inversion H; subst commitHash' w7; clear H.
  exists w5, w6. split; [done|].
  unfold call_ in Hunlock. rewrite call_run in Hunlock. by inversion Hunlock.
Qed.

(** C3: a write that has resolved its commits, written the tree and
    created its commit, and whose push step gets the remote, pushes, and
    resolves the local head and then the remote-tracking reference of
    the pushed branch, ends by comparing what these two lookups return,
    [headCommit] and [remoteCommit]: it fails with the error "Push to
    remote failed" exactly when their identifiers differ, and succeeds,
    with the hash of its commit, exactly when they are equal.  In both
    cases the calls of the push step and the release of the gate are the
    last events of the write. *)
Theorem replacePath_verifies_push parentVersion updateBranch path newFiles
  (w : world E) parentCommit wp branchCommit wb treeOid wt hash wc
  remote e1 e2 headCommit e3 remoteCommit e4 :
  Repo.getCommitByVersion parentVersion (call_ ELock lock_lock w).2
  = (Ok parentCommit, wp) →
  Repo.getCommitForUpdateBranch
    (JsString.or_else updateBranch parentVersion) wp
  = (Ok branchCommit, wb) →
  Repo.writeFiles parentCommit path newFiles wb = (Ok treeOid, wt) →
  Repo.commitAndMerge parentCommit branchCommit treeOid
                      ("Update '/" +:+ path +:+ "'") wt
  = (Ok hash, wc) →
  repo_getRemote "origin" (env wc) = (Ok remote, e1) →
  remote_push remote ("HEAD:refs/heads/" +:+ JsString.template updateBranch)
              e1
  = (Ok tt, e2) →
  repo_getReferenceCommit "HEAD" e2 = (Ok headCommit, e3) →
  repo_getReferenceCommit
    ("refs/remotes/origin/" +:+ JsString.template updateBranch) e3
  = (Ok remoteCommit, e4) →
  let r := Repo.replacePath parentVersion updateBranch path newFiles w in
  log r.2 = log wc ++ push_events updateBranch ++ [EUnlock] ∧
  (r.1 = Err (new_Error "Push to remote failed")
   ↔ sha headCommit ≠ sha remoteCommit) ∧
  (r.1 = Ok hash ↔ sha headCommit = sha remoteCommit).
Proof.
  intros Hparent Hbranch Hwrite Hcommit Hremote Hpush Hhead Hrem. simpl.
  assert (call_ ELock lock_lock w = (Ok tt, (call_ ELock lock_lock w).2))
    as Hlock by (unfold call_; by rewrite call_run).
  destruct (pushHeadToOrigin_verifies updateBranch wc remote e1 e2
              headCommit e3 remoteCommit e4 Hremote Hpush Hhead Hrem)
    as (Hlog & Herr & Hok).
  assert (Repo.replacePath parentVersion updateBranch path newFiles w
          = (match (Repo.pushHeadToOrigin updateBranch wc).1 with
             | Ok _ => Ok hash
             | Err e => Err e
             end,
             World (lock_unlock (env (Repo.pushHeadToOrigin updateBranch wc).2))
                   (log (Repo.pushHeadToOrigin updateBranch wc).2 ++ [EUnlock])
                   (js_heap (Repo.pushHeadToOrigin updateBranch wc).2)
                   (cache (Repo.pushHeadToOrigin updateBranch wc).2)))
    as ->.
  { unfold Repo.replacePath, catch.
    rewrite (bind_ok _ _ _ _ _ Hlock), (bind_ok _ _ _ _ _ Hparent),
      (bind_ok _ _ _ _ _ Hbranch), (bind_ok _ _ _ _ _ Hwrite),
      (bind_ok _ _ _ _ _ Hcommit).
    unfold bind at 1.
    destruct (Repo.pushHeadToOrigin updateBranch wc) as [[[]|x] w6]; simpl;
      unfold bind, call_, call, ret, throw; done. }
  destruct (Repo.pushHeadToOrigin updateBranch wc) as [[[]|x] w6] eqn:Hrun;
    simpl in Hlog, Herr, Hok |- *;
    rewrite Hlog; unfold push_events; rewrite <- !app_assoc; simpl.
  - split; [done|]. split.
    + split; [done|]. intros Hne. by apply Herr in Hne.
    + split; [intros _; by apply Hok | done].
  - split; [done|]. split.
    + rewrite <- Herr. split; congruence.
    + split; [done|]. intros Heq. by apply Hok in Heq.
Qed.

End Resolution.

Section Examples1.
#[local] Existing Instance MemEngine.runtime.

(** On the in-memory engine, pushing the head of [world0] to [topic]. *)
Lemma pushHeadToOrigin_verifies_witness :
  let r := Repo.pushHeadToOrigin (Some "topic") MemEngine.world0 in
  log r.2
  = [EGetRemote "origin"; EPush "HEAD:refs/heads/topic";
     EGetReferenceCommit "HEAD";
     EGetReferenceCommit "refs/remotes/origin/topic"] ∧
  (r.1 = Err (new_Error "Push to remote failed") ↔ "c1" ≠ "c1") ∧
  (r.1 = Ok tt ↔ "c1" = "c1").
Proof.
  apply (pushHeadToOrigin_verifies (Some "topic") MemEngine.world0
           "origin" MemEngine.repo0
           (MemEngine.push "origin" "HEAD:refs/heads/topic" MemEngine.repo0).2
           MemEngine.c1
           (MemEngine.push "origin" "HEAD:refs/heads/topic" MemEngine.repo0).2
           MemEngine.c1
           (MemEngine.push "origin" "HEAD:refs/heads/topic" MemEngine.repo0).2);
    reflexivity.
Defined.

(** A write on [master] with the diverged [topic] as update branch:
    the origin applies the push, the two lookups return the merge commit
    [c4], and the write succeeds with its hash. *)
Lemma replacePath_verifies_push_witness :
  let w := MemEngine.world0 in
  let wp :=
    (Repo.getCommitByVersion "master" (call_ ELock lock_lock w).2).2 in
  let wb := (Repo.getCommitForUpdateBranch "topic" wp).2 in
  let wt := (Repo.writeFiles MemEngine.c1 "dir" [("x", JNum 1%Z)] wb).2 in
  let wc :=
    (Repo.commitAndMerge MemEngine.c1 MemEngine.c2 "t3" "Update '/dir'"
                         wt).2 in
  let r :=
    Repo.replacePath "master" (Some "topic") "dir" [("x", JNum 1%Z)] w in
  log r.2 = log wc ++ push_events (Some "topic") ++ [EUnlock] ∧
  (r.1 = Err (new_Error "Push to remote failed") ↔ "c4" ≠ "c4") ∧
  (r.1 = Ok "c4" ↔ "c4" = "c4").
Proof.
  intros w wp wb wt wc.
  eapply (replacePath_verifies_push "master" (Some "topic") "dir"
            [("x", JNum 1%Z)] MemEngine.world0 MemEngine.c1 wp MemEngine.c2
            wb "t3" wt "c4" wc "origin" _ _
            {| sha := "c4"; parents := ["c3"; "c2"]; tree_id := "m4" |} _
            {| sha := "c4"; parents := ["c3"; "c2"]; tree_id := "m4" |} _);
    vm_compute; reflexivity.
Defined.

End Examples1.

(** ** The snapshot cache: queries and reads *)

Lemma prefix_refl (s : string) : String.prefix s s = true.
Proof.
  induction s as [|c s IH]; simpl; [done|].
  destruct (Ascii.ascii_dec c c); [exact IH | done].
Qed.

Lemma pickBy_lookup (m : gmap string value) (pred : string → bool) k :
  Lodash.pickBy m pred !! k = if pred k then m !! k else None.
Proof.
  unfold Lodash.pickBy. destruct (pred k) eqn:Hk.
  - destruct (m !! k) as [v|] eqn:Hm.
    + apply map_lookup_filter_Some. by split.
    + apply map_lookup_filter_None. left. done.
  - apply map_lookup_filter_None. right. intros v _. simpl. congruence.
Qed.

Section CacheFacts.
Context {E : Type} `{!Engine E} {RT : Runtime}.

Lemma getFiles_run path (w : world E) :
  Cache.getFiles path w
  = (Ok (if negb (String.eqb path "")
         then Lodash.pickBy (files (cache w))
                            (λ file, JsString.startsWith file path)
         else files (cache w)), w).
Proof.
  unfold Cache.getFiles, bind, get_cache, ret.
  by destruct (negb (String.eqb path "")).
Qed.

(** An empty prefix gives the whole flat map. *)
Lemma getFiles_empty_prefix (w : world E) :
  Cache.getFiles "" w = (Ok (files (cache w)), w).
Proof. by rewrite getFiles_run. Qed.

(** Any other prefix gives the entries whose path starts with it, under
    their full paths. *)
Lemma getFiles_prefix path (w : world E) :
  path ≠ "" →
  ∃ m, Cache.getFiles path w = (Ok m, w) ∧
       ∀ k, m !! k = if JsString.startsWith k path
                     then files (cache w) !! k else None.
Proof.
  intros Hne. rewrite getFiles_run.
  destruct (String.eqb_spec path "") as [->|_]; [done|]. simpl.
  eexists. split; [done|]. intros k. by rewrite pickBy_lookup.
Qed.

(** C5, where the code departs from it: when the prefix is itself a key
    of the flat map, [getFiles] returns a map that holds that very
    entry, not an empty map. *)
Theorem getFiles_exact_file (w : world E) (key : string) (v : value) :
  key ≠ "" →
  files (cache w) !! key = Some v →
  ∃ m, Cache.getFiles key w = (Ok m, w) ∧ m !! key = Some v ∧ m ≠ ∅.
Proof.
  intros Hne Hv. destruct (getFiles_prefix key w Hne) as (m & Hm & Hl).
  exists m. split; [done|].
  assert (m !! key = Some v) as Hk.
  { rewrite Hl. unfold JsString.startsWith. by rewrite prefix_refl. }
  split; [done|]. intros ->. by rewrite lookup_empty in Hk.
Qed.

Lemma update_same_commit commit (w : world E) :
  sha commit = commitHash (cache w) → Cache.update commit w = (Ok tt, w).
Proof.
  intros Heq. unfold Cache.update, bind, get_cache. simpl.
  by rewrite Heq, String.eqb_refl.
Qed.

Lemma update_other_commit commit (w w' : world E) r :
  sha commit ≠ commitHash (cache w) →
  Cache.update commit w = (Ok r, w') →
  commitHash (cache w') = sha commit.
Proof.
  intros Hne. unfold Cache.update, bind at 1, get_cache. simpl.
  destruct (String.eqb_spec (sha commit) (commitHash (cache w))); [done|].
  simpl. intros H.
  apply bind_ok_inv in H as (entries & wa & _ & H).
  apply bind_ok_inv in H as (built & wb & _ & H).
  unfold put_cache in H. by inversion H.
Qed.

Lemma getCommitByVersion_frame version (w : world E) :
  let w' := (Repo.getCommitByVersion version w).2 in
  cache w' = cache w ∧ js_heap w' = js_heap w ∧
  ∃ evs, log w' = log w ++ evs ∧ Forall (λ ev, is_rebuild ev = false) evs.
Proof.
  simpl. unfold Repo.getCommitByVersion, catch, throw.
  rewrite call_run.
  destruct (repo_getReferenceCommit _ (env w)) as [[c|e] e1]; simpl.
  { repeat split; try done. eexists. split; [done|]. by repeat constructor. }
  rewrite call_run. simpl.
  destruct (repo_getCommit version e1) as [[c|e'] e2]; simpl;
    (repeat split; try done;
     eexists; rewrite <- app_assoc; split; [done|]; by repeat constructor).
Qed.

(** A successful read is a resolution that leaves cache and heap alone,
    then a cache update, then the release of the gate; its result is
    read off the cache as the update left it. *)
Lemma getData_ok_inv version path listFiles (w w' : world E) r :
  Repo.getData version path listFiles w = (Ok r, w') →
  ∃ commit wa wb,
    cache wa = cache w ∧ js_heap wa = js_heap w ∧
    (∃ evs, log wa = log w ++ evs ∧
            Forall (λ ev, is_rebuild ev = false) evs) ∧
    Cache.update commit wa = (Ok tt, wb) ∧
    w' = World (lock_unlock (env wb)) (log wb ++ [EUnlock])
               (js_heap wb) (cache wb) ∧
    r = read_result (cache wb) (js_heap wb) path listFiles.
Proof.
  unfold Repo.getData, catch.
  destruct (bind _ _ w) as [[a|e] w1] eqn:Hbody; intros H.
  2:{ unfold bind, call_ in H. rewrite call_run in H. discriminate. }
  inversion H; subst a w1; clear H.
  apply bind_ok_inv in Hbody as ([] & w1 & Hlock & H).
  apply bind_ok_inv in H as ([] & w2 & Hfetch & H).
  apply bind_ok_inv in H as (commit & wa & Hres & H).
  apply bind_ok_inv in H as ([] & wb & Hupd & H).
  apply bind_ok_inv in H as ([] & w3 & Hunlock & H).
  exists commit, wa, wb.
  pose proof (getCommitByVersion_frame version w2)
    as (Hc & Hh & evs & Hlog & Hevs).
  rewrite Hres in Hc, Hh, Hlog. simpl in Hc, Hh, Hlog.
  unfold call_ in *. rewrite call_run in Hlock, Hfetch, Hunlock.
  inversion Hlock; subst w1; clear Hlock.
  inversion Hunlock; subst w3; clear Hunlock.
  destruct (repo_fetch "origin" _) as [rf ef]; simpl in Hfetch.
  inversion Hfetch; subst rf w2; clear Hfetch. simpl in Hc, Hh, Hlog.
  split; [done|]. split; [done|]. split.
  { exists ([ELock; EFetch "origin"] ++ evs).
    rewrite Hlog, <- !app_assoc. split; [done|].
    apply Forall_app. split; [by repeat constructor | done]. }
  split; [done|]. simpl in H.
  unfold Cache.getCommitHash, Cache.getFiles, Cache.getObject,
    bind, get_cache, get_heap, ret in H. simpl in H.
  unfold read_result.
  destruct listFiles; destruct (negb (String.eqb path "")); simpl in H;
    by inversion H.
Qed.

(** The read path: [getData] fetches from [origin] right after it
    has acquired the gate, before any resolution; when the fetch fails the
    read fails with the error of the fetch, and nothing is resolved. *)
Lemma getData_fetch_failure version path listFiles (w : world E) e e1 :
  repo_fetch "origin" (lock_lock (env w)) = (Err e, e1) →
  Repo.getData version path listFiles w
  = (Err e,
     World (lock_unlock e1) (log w ++ [ELock; EFetch "origin"; EUnlock])
           (js_heap w) (cache w)).
Proof.
  intros Hfetch. unfold Repo.getData, catch, bind, call_, call, throw.
  simpl. rewrite Hfetch. simpl. by rewrite <- !app_assoc.
Qed.

(** The fetch is the only one of a read, and every other call into the
    repository comes after it. *)
Lemma getData_fetches_first version path listFiles (w : world E) :
  ∃ evs,
    log (Repo.getData version path listFiles w).2
    = log w ++ ELock :: EFetch "origin" :: evs ∧
    Forall (λ ev, is_fetch ev = false) evs.
Proof.
  destruct (repo_fetch "origin" (lock_lock (env w))) as [[[]|e] e1] eqn:Hfetch.
  2:{ rewrite (getData_fetch_failure _ _ _ _ _ _ Hfetch). simpl.
      exists [EUnlock]. split; [done | by repeat constructor]. }
  unfold Repo.getData, catch. unfold bind at 1, call_ at 1, call at 1. simpl.
  unfold bind at 1, call at 1. simpl. rewrite Hfetch. simpl.
  set (w2 := World e1 ((log w ++ [ELock]) ++ [EFetch "origin"])
                   (js_heap w) (cache w)).
  pose proof (keeps_getData_rest
                (λ a b, ∃ evs, log b = log a ++ evs ∧
                               Forall (λ ev, is_fetch ev = false) evs)
                (λ ev, is_fetch ev = false)) as Hrest.
  destruct (Hrest) with (version := version) (path := path)
                        (listFiles := listFiles) (w := w2)
    as (evs & Hlog & Hevs).
  - intros a. exists []. by rewrite app_nil_r.
  - intros a b c (x1 & H1 & F1) (x2 & H2 & F2). exists (x1 ++ x2).
    rewrite H2, H1, app_assoc. split; [done | by apply Forall_app].
  - intros a e' ev Hev. exists [ev]. simpl. split; [done | by constructor].
  - intros a h c. exists []. simpl. by rewrite app_nil_r.
  - done.
  - exists evs. split; [|done].
    unfold catch, bind in Hlog. unfold bind.
    destruct (Repo.getCommitByVersion version w2) as [[c|e] w3] eqn:Hres;
      rewrite Hlog; subst w2; simpl; by rewrite <- !app_assoc.
Qed.

(** C9: two reads that resolve to the same commit, the second one
    starting where the first one ended, return the same result; the
    second read leaves the cached snapshot and the heap untouched and
    performs no call of a snapshot rebuild. *)
Theorem getData_twice version1 version2 path listFiles
  (w w1 w2 : world E) r1 r2 :
  Repo.getData version1 path listFiles w = (Ok r1, w1) →
  Repo.getData version2 path listFiles w1 = (Ok r2, w2) →
  rr_commitHash r2 = rr_commitHash r1 →
  r2 = r1 ∧ cache w2 = cache w1 ∧ js_heap w2 = js_heap w1 ∧
  ∃ evs, log w2 = log w1 ++ evs ∧ Forall (λ ev, is_rebuild ev = false) evs.
Proof.
  intros H1 H2 Hhash.
  apply getData_ok_inv in H1 as (c1 & wa1 & wb1 & _ & _ & _ & _ & -> & ->).
  apply getData_ok_inv in H2
    as (c2 & wa2 & wb2 & Hc & Hh & (evs & Hlog & Hevs) & Hupd & -> & ->).
  simpl in *.
  destruct (decide (sha c2 = commitHash (cache wa2))) as [Heq|Hne].
  - rewrite (update_same_commit c2 wa2 Heq) in Hupd.
    inversion Hupd; subst wb2. rewrite Hc, Hh. repeat split; try done.
    exists (evs ++ [EUnlock]). rewrite Hlog, <- app_assoc. split; [done|].
    apply Forall_app. split; [done | by repeat constructor].
  - apply (update_other_commit c2 wa2 wb2 tt Hne) in Hupd.
    rewrite Hc in Hne. congruence.
Qed.

End CacheFacts.

(** ** Runs on the in-memory engine *)

Section Examples2.
#[local] Existing Instance MemEngine.runtime.

(** After a read of [master], whose tree holds [rootFile.json], listing
    the files under the prefix [rootFile] returns that file. *)
Lemma getFiles_exact_file_witness :
  let w := (Repo.getData "master" "" true MemEngine.world0).2 in
  ∃ m, Cache.getFiles "rootFile" w = (Ok m, w) ∧
       m !! "rootFile" = Some (VNum 1) ∧ m ≠ ∅.
Proof.
  apply getFiles_exact_file; [done | vm_compute; reflexivity].
Defined.

(** Reading [master] and then its commit [c1] by identifier. *)
Lemma getData_twice_witness :
  let x1 := Repo.getData "master" "dir" false MemEngine.world0 in
  let x2 := Repo.getData "c1" "dir" false x1.2 in
  let d := {| rr_commitHash := ""; rr_data := DataObject VUndefined |} in
  ok_or d x2.1 = ok_or d x1.1 ∧
  cache x2.2 = cache x1.2 ∧ js_heap x2.2 = js_heap x1.2 ∧
  ∃ evs, log x2.2 = log x1.2 ++ evs ∧
         Forall (λ ev, is_rebuild ev = false) evs.
Proof.
  apply (getData_twice "master" "c1" "dir" false MemEngine.world0);
    vm_compute; reflexivity.
Defined.

(** C2, where the code departs from it: a write to [master] without an
    update branch resolves the update-branch commit from [master], yet
    pushes the new commit to a branch named [undefined] and verifies the
    push against the remote-tracking reference of that name; [master] at
    the origin stays where it was. *)
Theorem replacePath_without_updateBranch :
  let r := Repo.replacePath "master" None "dir" [("x", JNum 1%Z)]
                            MemEngine.world0 in
  r.1 = Ok "c3" ∧
  log r.2
  = [ELock; EGetReferenceCommit "refs/remotes/origin/master";
     EGetReferenceCommit "refs/remotes/origin/master";
     EReset "c1"; ERimraf "/repo/dir/*"; EOutputJson "/repo/dir/x.json";
     ERefreshIndex; EIndexAddAll; EIndexWrite; EIndexWriteTree;
     ECreateCommit "HEAD" "Update '/dir'" "t3" ["c1"];
     EGetCommit "c3"; ERevWalk "c3"; EGetRemote "origin";
     EPush "HEAD:refs/heads/undefined"; EGetReferenceCommit "HEAD";
     EGetReferenceCommit "refs/remotes/origin/undefined"; EUnlock] ∧
  MemEngine.m_origin (env r.2)
  = [("undefined", "c3"); ("master", "c1"); ("topic", "c2")].
Proof. vm_compute. repeat split. Qed.

End Examples2.

(** ** The commits a write creates *)

Section Commits.
Context {E : Type} `{!Engine E} {RT : Runtime}.
Hypothesis law : createCommit_law E.


Lemma createSignature_run (w : world E) :
  ∃ s, Repo.createSignature w = (Ok s, w).
Proof. unfold Repo.createSignature, bind, ask, ret. eauto. Qed.

(** A successful [commitAndMerge]: the calls it made and what they
    returned.  It created a commit on [HEAD] with the parent commit as
    only parent and read it back as [commit]; the walk from [commit]
    either met the branch commit, and the hash returned is that of
    [commit]; or it ended without, the merge had no conflicts, and the
    hash returned is that of the commit read back after creating, on
    [HEAD], a commit with the parents [commit] and the branch commit, in
    this order. *)
Lemma commitAndMerge_ok_inv parentCommit branchCommit treeOid msg
  (w w' : world E) hash :
  Repo.commitAndMerge parentCommit branchCommit treeOid msg w = (Ok hash, w') →
  ∃ oid e1 commit e2,
    repo_createCommit "HEAD" (signature_of (env w)) (signature_of (env w))
                      msg treeOid [parentCommit] (env w) = (Ok oid, e1) ∧
    repo_getCommit oid e1 = (Ok commit, e2) ∧
    match Repo.isAncestor_loop (sha branchCommit)
            (repo_revwalk (sha commit) e2).1
            (repo_revwalk (sha commit) e2).2 with
    | Ok true => hash = sha commit
    | Ok false =>
        ∃ index e3 mergeTree e4 mergeOid e5 result e6,
          Merge_commits branchCommit commit e2 = (Ok index, e3) ∧
          index_hasConflicts index e3 = false ∧
          index_writeTreeTo index e3 = (Ok mergeTree, e4) ∧
          repo_createCommit "HEAD" (signature_of e3) (signature_of e3)
                            "Merge" mergeTree [commit; branchCommit] e4
          = (Ok mergeOid, e5) ∧
          repo_getCommit mergeOid e5 = (Ok result, e6) ∧
          hash = sha result
    | Err _ => False
    end.
Proof.
  unfold Repo.commitAndMerge, Repo.createSignature, Repo.createCommit,
    Repo.getCommit, Repo.isAncestor, bind, call, ask, ret, throw.
  simpl. fold (signature_of (env w)).
  destruct (repo_createCommit "HEAD" _ _ msg treeOid [parentCommit] (env w))
    as [[oid|x] e1] eqn:Hcreate; simpl; [|done].
  destruct (repo_getCommit oid e1) as [[commit|x] e2] eqn:Hget; simpl;
    [|done].
  intros H. exists oid, e1, commit, e2. split; [done|]. split; [done|].
  destruct (Repo.isAncestor_loop _ _ _) as [[]|x]; simpl in H; [| |done].
  { by injection H as <- _. }
  destruct (Merge_commits branchCommit commit e2) as [[index|x] e3] eqn:Hm;
    simpl in H; [|done].
  destruct (index_hasConflicts index e3) eqn:Hconf; simpl in H; [done|].
  fold (signature_of e3) in H.
  destruct (index_writeTreeTo index e3) as [[mergeTree|x] e4] eqn:Hwt;
    simpl in H; [|done].
  destruct (repo_createCommit "HEAD" _ _ "Merge" mergeTree
              [commit; branchCommit] e4) as [[mergeOid|x] e5] eqn:Hmc;
    simpl in H; [|done].
  destruct (repo_getCommit mergeOid e5) as [[result|x] e6] eqn:Hmg;
    simpl in H; [|done].
  injection H as <- _.
  by exists index, e3, mergeTree, e4, mergeOid, e5, result, e6.
Qed.

(** C1, as the code has it: a successful write resolved the parent
    commit and the update-branch commit, wrote the tree, created on
    [HEAD] a commit with that tree and read it back as [commit], whose
    only parent is the resolved parent commit.  When the walk from
    [commit] meets the update-branch commit, the write returns the hash
    of [commit].  Otherwise it returns the hash of [result], the commit
    read back after creating, on [HEAD], the merge commit: the first
    parent of [result] is [commit], not the resolved parent commit, and
    its second parent is the update-branch commit. *)
Theorem replacePath_parents parentVersion updateBranch path newFiles
  (w w' : world E) hash :
  Repo.replacePath parentVersion updateBranch path newFiles w = (Ok hash, w') →
  ∃ parentCommit branchCommit wp wb treeOid wt oid e1 commit e2,
    Repo.getCommitByVersion parentVersion (call_ ELock lock_lock w).2
    = (Ok parentCommit, wp) ∧
    Repo.getCommitForUpdateBranch
      (JsString.or_else updateBranch parentVersion) wp
    = (Ok branchCommit, wb) ∧
    Repo.writeFiles parentCommit path newFiles wb = (Ok treeOid, wt) ∧
    repo_createCommit "HEAD" (signature_of (env wt)) (signature_of (env wt))
                      ("Update '/" +:+ path +:+ "'") treeOid [parentCommit]
                      (env wt)
    = (Ok oid, e1) ∧
    repo_getCommit oid e1 = (Ok commit, e2) ∧
    parents commit = [sha parentCommit] ∧
    match Repo.isAncestor_loop (sha branchCommit)
            (repo_revwalk (sha commit) e2).1
            (repo_revwalk (sha commit) e2).2 with
    | Ok true => hash = sha commit
    | Ok false =>
        ∃ index e3 mergeTree e4 mergeOid e5 result e6,
          Merge_commits branchCommit commit e2 = (Ok index, e3) ∧
          index_hasConflicts index e3 = false ∧
          index_writeTreeTo index e3 = (Ok mergeTree, e4) ∧
          repo_createCommit "HEAD" (signature_of e3) (signature_of e3)
                            "Merge" mergeTree [commit; branchCommit] e4
          = (Ok mergeOid, e5) ∧
          repo_getCommit mergeOid e5 = (Ok result, e6) ∧
          hash = sha result ∧
          parents result = [sha commit; sha branchCommit]
    | Err _ => False
    end.
Proof.
  unfold Repo.replacePath, catch.
  destruct (bind _ _ w) as [[a|e] w1] eqn:Hbody; intros H.
  2:{ unfold bind, call_ in H. rewrite call_run in H. discriminate. }
  inversion H; subst a w1; clear H.
  apply bind_ok_inv in Hbody as ([] & w1 & Hlock & H).
  apply bind_ok_inv in H as (parentCommit & wp & Hparent & H).
  apply bind_ok_inv in H as (branchCommit & wb & Hbranch & H).
  apply bind_ok_inv in H as (treeOid & wt & Hwrite & H).
  apply bind_ok_inv in H as (commitHash' & w5 & Hcm & H).
  apply bind_ok_inv in H as ([] & w6 & _ & H).
  apply bind_ok_inv in H as ([] & w7 & _ & H).
  unfold ret in H. inversion H; subst commitHash' w7; clear H.
  apply commitAndMerge_ok_inv in Hcm
    as (oid & e1 & commit & e2 & Hcreate & Hget & Hres).
  exists parentCommit, branchCommit, wp, wb, treeOid, wt, oid, e1, commit, e2.
  replace (call_ ELock lock_lock w).2 with w1 by by rewrite Hlock.
  destruct (law _ _ _ _ _ _ _ _ _ Hcreate _ _ Hget) as [_ Hps].
  repeat (split; [done|]).
  destruct (Repo.isAncestor_loop _ _ _) as [[]|x]; [done| |done].
  destruct Hres as (index & e3 & mergeTree & e4 & mergeOid & e5 & result
                    & e6 & Hm & Hconf & Hwt & Hmc & Hmg & ->).
  destruct (law _ _ _ _ _ _ _ _ _ Hmc _ _ Hmg) as [_ Hmps].
  by exists index, e3, mergeTree, e4, mergeOid, e5, result, e6.
Qed.

End Commits.

Section Examples3.
#[local] Existing Instance MemEngine.runtime.

Lemma mem_createCommit_law : createCommit_law MemEngine.mem.
Proof.
  intros ref author committer msg tree ps e e' oid Hc c e'' Hg.
  simpl in Hc, Hg. unfold MemEngine.createCommit in Hc.
  inversion Hc; subst oid e'; clear Hc.
  unfold MemEngine.getCommit, MemEngine.find_commit in Hg. simpl in Hg.
  rewrite String.eqb_refl in Hg. by inversion Hg.
Qed.

(** A write on [master] with the diverged [topic] as update branch. *)
Lemma replacePath_parents_witness :
  let w := MemEngine.world0 in
  ∃ parentCommit branchCommit wp wb treeOid wt oid e1 commit e2,
    Repo.getCommitByVersion "master" (call_ ELock lock_lock w).2
    = (Ok parentCommit, wp) ∧
    Repo.getCommitForUpdateBranch (JsString.or_else (Some "topic") "master") wp
    = (Ok branchCommit, wb) ∧
    Repo.writeFiles parentCommit "dir" [("x", JNum 1%Z)] wb = (Ok treeOid, wt) ∧
    repo_createCommit "HEAD" (signature_of (env wt)) (signature_of (env wt))
                      ("Update '/" +:+ "dir" +:+ "'") treeOid [parentCommit]
                      (env wt)
    = (Ok oid, e1) ∧
    repo_getCommit oid e1 = (Ok commit, e2) ∧
    parents commit = [sha parentCommit] ∧
    match Repo.isAncestor_loop (sha branchCommit)
            (repo_revwalk (sha commit) e2).1
            (repo_revwalk (sha commit) e2).2 with
    | Ok true => "c4" = sha commit
    | Ok false =>
        ∃ index e3 mergeTree e4 mergeOid e5 result e6,
          Merge_commits branchCommit commit e2 = (Ok index, e3) ∧
          index_hasConflicts index e3 = false ∧
          index_writeTreeTo index e3 = (Ok mergeTree, e4) ∧
          repo_createCommit "HEAD" (signature_of e3) (signature_of e3)
                            "Merge" mergeTree [commit; branchCommit] e4
          = (Ok mergeOid, e5) ∧
          repo_getCommit mergeOid e5 = (Ok result, e6) ∧
          "c4" = sha result ∧
          parents result = [sha commit; sha branchCommit]
    | Err _ => False
    end.
Proof.
  apply (replacePath_parents mem_createCommit_law "master" (Some "topic")
           "dir" [("x", JNum 1%Z)] MemEngine.world0
           (Repo.replacePath "master" (Some "topic") "dir" [("x", JNum 1%Z)]
                             MemEngine.world0).2).
  vm_compute. reflexivity.
Defined.

(** C1 as stated fails on a merge: the write below succeeds with the
    commit [c4]; the resolved parent commit is [c1]; the parents of [c4]
    are the freshly created [c3] and the update-branch commit [c2], so
    its first parent is not [c1]. *)
Lemma merge_commit_first_parent :
  let r := Repo.replacePath "master" (Some "topic") "dir" [("x", JNum 1%Z)]
                            MemEngine.world0 in
  ∃ parentCommit result,
    (Repo.getCommitByVersion "master"
       (call_ ELock lock_lock MemEngine.world0).2).1 = Ok parentCommit ∧
    r.1 = Ok (sha result) ∧
    (repo_getCommit (sha result) (env r.2)).1 = Ok result ∧
    parents result = ["c3"; "c2"] ∧
    head (parents result) ≠ Some (sha parentCommit).
Proof.
  exists MemEngine.c1, {| sha := "c4"; parents := ["c3"; "c2"]; tree_id := "m4" |}.
  vm_compute. repeat split. discriminate.
Qed.

End Examples3.

(** ** Paths and their segments *)









(** ** Objects of the heap *)

Lemma define_lookup_eq h l o key v :
  h !! l = Some o →
  Heap.define h l key v !! l
  = Some (Obj (is_array o) (<[key := v]> (props o))).
Proof.
  intros Hl. unfold Heap.define. rewrite Hl.
  apply list_lookup_insert_eq. by eapply lookup_lt_Some.
Qed.

Lemma define_lookup_ne h l l' key v :
  l ≠ l' → Heap.define h l key v !! l' = h !! l'.
Proof.
  intros Hne. unfold Heap.define. destruct (h !! l); [|done].
  by apply list_lookup_insert_ne.
Qed.


(** ** Members of the heap *)

Section Members.
Context {RT : Runtime}.

Lemma ordinary_spec h key :
  Heap.ordinary h key = true ↔ exotic h = false ∧ native_name key = false.
Proof.
  unfold Heap.ordinary. rewrite andb_true_iff, !negb_true_iff. done.
Qed.

Lemma getprop_ordinary h l key :
  exotic h = false → native_name key = false →
  Heap.getprop h (VObj l) key = Heap.own (objects h) (VObj l) key.
Proof.
  intros He Hk. unfold Heap.getprop, Heap.ordinary. by rewrite He, Hk.
Qed.

Lemma setprop_ordinary h l key x :
  exotic h = false → native_name key = false →
  Heap.setprop h (VObj l) key x
  = (Ok tt, MkHeap (Heap.define (objects h) l key x) false).
Proof.
  intros He Hk. unfold Heap.setprop, Heap.ordinary. by rewrite He, Hk.
Qed.

(** A write that leaves the heap as it was known was an ordinary one:
    the member of an object, under a name that is not the runtime's, in
    a heap that was not exotic; it succeeded. *)
Lemma setprop_plain h v key x :
  exotic (Heap.setprop h v key x).2 = false →
  exotic h = false ∧ native_name key = false ∧ ∃ l, v = VObj l.
Proof.
  unfold Heap.setprop.
  destruct v as [| | | | |l|];
    try (destruct (native_set _ _ _ _); by intros [=]).
  destruct (Heap.ordinary h key) eqn:Ho.
  - apply ordinary_spec in Ho as [He Hk]. eauto.
  - destruct (native_set _ _ _ _). by intros [=].
Qed.

Lemma newValue_exotic h nested key rest v :
  exotic (Lodash.newValue h nested key rest v).2 = exotic h.
Proof.
  unfold Lodash.newValue. destruct rest as [|next rest']; [done|].
  by destruct (Lodash.isObject _).
Qed.

(** One round of the loop of [baseSet]. *)
Lemma baseSet_cons h nested key rest v :
  nested ≠ VUndefined → nested ≠ VNull →
  Lodash.baseSet h nested (key :: rest) v
  = match Heap.setprop (Lodash.newValue h nested key rest v).2 nested key
                       (Lodash.newValue h nested key rest v).1 with
    | (Ok _, h2) => Lodash.baseSet h2 (Heap.getprop h2 nested key) rest v
    | (Err e, h2) => (Err e, h2)
    end.
Proof.
  intros H1 H2. simpl.
  destruct nested; try done; by destruct (Lodash.newValue _ _ _ _ _).
Qed.

(** Once exotic, the heap stays exotic. *)
Lemma baseSet_exotic path :
  ∀ h nested v,
    exotic (Lodash.baseSet h nested path v).2 = false → exotic h = false.
Proof.
  induction path as [|key rest IH]; intros h nested v; [done|].
  destruct (decide (nested = VUndefined)) as [->|H1]; [done|].
  destruct (decide (nested = VNull)) as [->|H2]; [done|].
  rewrite baseSet_cons by done.
  destruct (Heap.setprop _ nested key _) as [[[]|e] h2] eqn:Hs; intros Hx.
  - apply IH in Hx.
    destruct (setprop_plain _ nested key _ ltac:(by rewrite Hs)) as (He & _).
    by rewrite newValue_exotic in He.
  - destruct (setprop_plain _ nested key _ ltac:(by rewrite Hs)) as (He & _).
    by rewrite newValue_exotic in He.
Qed.


Lemma walk_app h v p q :
  Lodash.walk h v (p ++ q) = Lodash.walk h (Lodash.walk h v p) q.
Proof.
  revert v. induction p as [|a p IH]; intros v; simpl; [done|].
  destruct v; try apply IH; by destruct q.
Qed.


End Members.

(** ** The nested object as a tree of directories *)

Section Tree.
Implicit Types (h : store) (F : gmap string value).
Implicit Types (D : gmap (list string) loc) (p q : list string).









End Tree.

Section TreeSet.
Implicit Types (h : store) (F : gmap string value).
Implicit Types (D : gmap (list string) loc) (p q : list string).


End TreeSet.

Section TreeWalk.
Context {RT : Runtime}.
Implicit Types (h : heap) (F : gmap string value).
Implicit Types (D : gmap (list string) loc) (p q : list string).

Lemma own_define_eq (s : store) l o key x :
  s !! l = Some o → Heap.own (Heap.define s l key x) (VObj l) key = x.
Proof.
  intros Ho. unfold Heap.own.
  rewrite (define_lookup_eq _ _ _ _ _ Ho). simpl.
  by rewrite lookup_insert_eq.
Qed.

Lemma own_define_none (s : store) l key x :
  s !! l = None → Heap.own (Heap.define s l key x) (VObj l) key = VUndefined.
Proof. intros Ho. unfold Heap.own, Heap.define. by rewrite Ho, Ho. Qed.




(** The directories are on the way to the keys of the flat map. *)
Lemma tree_inv_plain (s : store) root F D p l :
  tree_inv s root F D [] → plain_keys F → D !! p = Some l → plain_path p.
Proof.
  intros Hinv HF Hp. destruct (decide (p = [])) as [->|Hne]; [constructor|].
  destruct (inv_used _ _ _ _ _ Hinv p l Hp Hne)
    as [(k & Hk & x & r & Hs)|(x & Hx & _)]; [|by apply elem_of_nil in Hx].
  specialize (HF k Hk). unfold plain_path in *. rewrite Hs in HF.
  by apply Forall_app in HF as [? _].
Qed.




End TreeWalk.

(** ** Building the snapshot *)

Section Build.
Context {E : Type} `{!Engine E} {RT : Runtime}.

(** *** The steps of the loop, run *)

Lemma parse_run content (w : world E) :
  Cache.parse content w
  = match JSON5_parse content with
    | Ok j => (Ok (Heap.parsed (js_heap w) j).1,
               World (env w) (log w) (Heap.parsed (js_heap w) j).2 (cache w))
    | Err e => (Err e, w)
    end.
Proof.
  unfold Cache.parse. destruct (JSON5_parse content) as [j|e]; [|done].
  unfold bind, get_heap, put_heap, ret. simpl.
  by destruct (Heap.parsed (js_heap w) j).
Qed.

Lemma store_file_run F path v (w : world E) :
  Cache.store_file F path v w
  = if Heap.ordinary (js_heap w) path then (Ok (<[path := v]> F), w)
    else (Ok (native_store (js_heap w) F path v),
          World (env w) (log w) (MkHeap (objects (js_heap w)) true)
                (cache w)).
Proof.
  unfold Cache.store_file, bind, get_heap, put_heap, ret. simpl.
  by destruct (Heap.ordinary (js_heap w) path).
Qed.

Lemma set_path_run object path v (w : world E) :
  Cache.set_path object path v w
  = (match (Lodash.set (js_heap w) object (Cache.segments path) v).1 with
     | Ok _ => Ok tt
     | Err e => Err e
     end,
     World (env w) (log w)
           (Lodash.set (js_heap w) object (Cache.segments path) v).2
           (cache w)).
Proof.
  unfold Cache.set_path, bind, get_heap, put_heap, ret, throw. simpl.
  by destruct (Lodash.set (js_heap w) object (Cache.segments path) v)
    as [[[]|e] h'].
Qed.

(** *** Ordinary runs *)











(** *** The tree that the loop builds *)




(** *** The errors of the loop *)



End Build.

Section Examples4.
#[local] Existing Instance MemEngine.runtime.





(** * Further properties of the code *)

End Examples4.

(** ** The calls each function makes

    As [keeps] above, for an [okev] that admits the events of the kinds
    [allowed], and a relation that heap updates respect. *)

Section Footprint.
Context {E : Type} `{!Engine E} {RT : Runtime}.
Context (R : world E → world E → Prop) (okev : event → Prop).
Context (allowed : kind → bool).
Hypothesis R_refl : ∀ w, R w w.
Hypothesis R_trans : ∀ a b c, R a b → R b c → R a c.
Hypothesis R_call :
  ∀ w e' ev, okev ev → R w (World e' (log w ++ [ev]) (js_heap w) (cache w)).
Hypothesis R_heap : ∀ w h, R w (World (env w) (log w) h (cache w)).
Hypothesis okev_kind : ∀ ev, allowed (kind_of ev) = true → okev ev.

Local Ltac fp_leaf :=
  first
    [ apply (keeps_ret R R_refl)
    | apply (keeps_throw R R_refl)
    | apply (keeps_ask R R_refl)
    | apply (keeps_call_ R okev R_call); apply okev_kind; simpl; assumption
    | apply (keeps_call R okev R_call); apply okev_kind; simpl; assumption
    | (intros w; apply R_heap)
    | (intros w; apply R_refl) ].

Local Ltac fp_seq lem :=
  apply (keeps_bind R R_trans); [lem | intros ?].

Lemma fp_getCommitByVersion version :
  allowed KLookup = true → keeps R (Repo.getCommitByVersion version).
Proof.
  intros Hk. unfold Repo.getCommitByVersion.
  apply (keeps_catch R R_trans); [|intros ?; fp_leaf].
  apply (keeps_catch R R_trans); [|intros ?]; fp_leaf.
Qed.

Lemma fp_getCommitForUpdateBranch reference :
  allowed KLookup = true → keeps R (Repo.getCommitForUpdateBranch reference).
Proof.
  intros Hk. unfold Repo.getCommitForUpdateBranch.
  apply (keeps_catch R R_trans); [|intros ?]; fp_leaf.
Qed.

Lemma fp_outputFiles fqPath newFiles :
  allowed KWorktree = true → keeps R (Repo.outputFiles fqPath newFiles).
Proof.
  intros Hk. induction newFiles as [|[file data] rest IH]; simpl; [fp_leaf|].
  fp_seq fp_leaf. exact IH.
Qed.

Lemma fp_writeFiles parentCommit path newFiles :
  allowed KWorktree = true →
  keeps R (Repo.writeFiles parentCommit path newFiles).
Proof.
  intros Hk. unfold Repo.writeFiles. do 3 (fp_seq fp_leaf).
  fp_seq ltac:(by apply fp_outputFiles).
  do 3 (fp_seq fp_leaf). fp_leaf.
Qed.

Lemma fp_createSignature : keeps R Repo.createSignature.
Proof. unfold Repo.createSignature. fp_seq fp_leaf. fp_leaf. Qed.

Lemma fp_isAncestor a c :
  allowed KWalk = true → keeps R (Repo.isAncestor a c).
Proof.
  intros Hk. unfold Repo.isAncestor. fp_seq fp_leaf.
  destruct (Repo.isAncestor_loop _ _ _); fp_leaf.
Qed.

Lemma fp_commitAndMerge parentCommit branchCommit treeOid msg :
  allowed KCommit = true → allowed KLookup = true →
  allowed KWalk = true → allowed KMerge = true →
  keeps R (Repo.commitAndMerge parentCommit branchCommit treeOid msg).
Proof.
  intros Hc Hl Hw Hm.
  unfold Repo.commitAndMerge, Repo.createCommit, Repo.getCommit.
  fp_seq ltac:(apply fp_createSignature).
  do 2 (fp_seq fp_leaf).
  fp_seq ltac:(by apply fp_isAncestor).
  destruct a2; [fp_leaf|].
  do 2 (fp_seq fp_leaf).
  destruct a3; [fp_leaf|].
  fp_seq ltac:(apply fp_createSignature).
  do 3 (fp_seq fp_leaf). fp_leaf.
Qed.

Lemma fp_pushHeadToOrigin branch :
  allowed KPush = true → allowed KLookup = true →
  keeps R (Repo.pushHeadToOrigin branch).
Proof.
  intros Hp Hl. unfold Repo.pushHeadToOrigin, Repo.getReferenceCommit.
  do 4 (fp_seq fp_leaf). destruct (negb _); fp_leaf.
Qed.

Lemma fp_parse content : keeps R (Cache.parse content).
Proof.
  unfold Cache.parse. destruct (JSON5_parse content) as [j|e]; [|fp_leaf].
  fp_seq fp_leaf.
  destruct (Heap.parsed a j) as [v h'].
  fp_seq fp_leaf. fp_leaf.
Qed.

Lemma fp_store_file F path fileData :
  keeps R (Cache.store_file F path fileData).
Proof.
  unfold Cache.store_file. fp_seq fp_leaf.
  destruct (Heap.ordinary _ _); [fp_leaf|].
  fp_seq fp_leaf. fp_leaf.
Qed.

Lemma fp_set_path object path fileData :
  keeps R (Cache.set_path object path fileData).
Proof.
  unfold Cache.set_path. fp_seq fp_leaf.
  destruct (Lodash.set _ _ _ _) as [r h'].
  fp_seq fp_leaf. destruct r; fp_leaf.
Qed.

Lemma fp_buildData_loop object F fileEntries :
  allowed KTree = true → keeps R (Cache.buildData_loop object F fileEntries).
Proof.
  intros Hk. revert F.
  induction fileEntries as [|entry rest IH]; intros F; simpl; [fp_leaf|].
  fp_seq fp_leaf. fp_seq ltac:(apply fp_parse).
  fp_seq ltac:(apply fp_store_file).
  fp_seq ltac:(apply fp_set_path). apply IH.
Qed.

Lemma fp_buildData fileEntries :
  allowed KTree = true → keeps R (Cache.buildData fileEntries).
Proof.
  intros Hk. unfold Cache.buildData. fp_seq fp_leaf.
  fp_seq ltac:(by apply fp_buildData_loop). fp_leaf.
Qed.

Lemma fp_getFileEntries commit :
  allowed KTree = true → keeps R (Cache.getFileEntries commit).
Proof.
  intros Hk. unfold Cache.getFileEntries. do 2 (fp_seq fp_leaf). fp_leaf.
Qed.

Lemma fp_update commit :
  (∀ w c, R w (World (env w) (log w) (js_heap w) c)) →
  allowed KTree = true → keeps R (Cache.update commit).
Proof.
  intros Hcache Hk. unfold Cache.update. fp_seq fp_leaf.
  destruct (negb _); [|fp_leaf].
  fp_seq ltac:(by apply fp_getFileEntries).
  fp_seq ltac:(by apply fp_buildData).
  intros w. apply Hcache.
Qed.

End Footprint.

(** ** The ancestry check *)

Lemma isAncestor_loop_spec ancestor yielded stop :
  (Repo.isAncestor_loop ancestor yielded stop = Ok true ↔ ancestor ∈ yielded) ∧
  (Repo.isAncestor_loop ancestor yielded stop = Ok false
   ↔ ((ancestor ∉ yielded) ∧ errno stop = Some ITEROVER)) ∧
  (∀ e, Repo.isAncestor_loop ancestor yielded stop = Err e
        ↔ ((ancestor ∉ yielded) ∧ errno stop ≠ Some ITEROVER ∧ e = stop)).
Proof.
  induction yielded as [|oid rest (IHt & IHf & IHe)]; simpl.
  - destruct (decide (errno stop = Some ITEROVER)) as [Hs|Hs].
    + split; [|split; [|intros e]]; split; try done.
      * by intros ?%elem_of_nil.
      * intros _. split; [apply not_elem_of_nil | done].
      * by intros (_ & ? & _).
    + split; [|split; [|intros e]]; split; try done.
      * by intros ?%elem_of_nil.
      * by intros [_ ?].
      * intros [= <-]. split; [apply not_elem_of_nil | done].
      * by intros (_ & _ & ->).
  - destruct (String.eqb_spec ancestor oid) as [->|Hne].
    + split; [|split; [|intros e]]; split; try done.
      * intros _. by left.
      * intros [Hn _]. exfalso. apply Hn. by left.
      * intros (Hn & _). exfalso. apply Hn. by left.
    + rewrite IHt, IHf, not_elem_of_cons, elem_of_cons.
      split; [|split; [|intros e; rewrite IHe, not_elem_of_cons]];
        intuition congruence.
Qed.

Section Ancestry.
Context {E : Type} `{!Engine E} {RT : Runtime}.

(** [isAncestor] answers [true] exactly when the identifier of the
    ancestor commit is among those the walk yields, also when the walk
    would end in an error later; [false] exactly when it is not among them
    and the walk ends with [ITEROVER]; and it rejects, with the error of
    the walk, exactly when it is not among them and the walk ends
    otherwise.  It changes nothing but the log. *)
Theorem isAncestor_decides ancestorCommit commit (w : world E) :
  let walk := repo_revwalk (sha commit) (env w) in
  let out := Repo.isAncestor ancestorCommit commit w in
  out.2 = World (env w) (log w ++ [ERevWalk (sha commit)])
                (js_heap w) (cache w) ∧
  (out.1 = Ok true ↔ sha ancestorCommit ∈ walk.1) ∧
  (out.1 = Ok false
   ↔ ((sha ancestorCommit ∉ walk.1) ∧ errno walk.2 = Some ITEROVER)) ∧
  (∀ e, out.1 = Err e
        ↔ ((sha ancestorCommit ∉ walk.1) ∧ errno walk.2 ≠ Some ITEROVER ∧
           e = walk.2)).
Proof.
  simpl. unfold Repo.isAncestor, bind, call. simpl.
  pose proof (isAncestor_loop_spec (sha ancestorCommit)
                (repo_revwalk (sha commit) (env w)).1
                (repo_revwalk (sha commit) (env w)).2) as (Ht & Hf & He).
  destruct (Repo.isAncestor_loop _ _ _) as [b|e0]; simpl;
    (split; [done|]; split; [exact Ht|]; split; [exact Hf | exact He]).
Qed.

End Ancestry.

(** ** The shape of the log of an operation *)

Section Shape.
Context {E : Type} `{!Engine E} {RT : Runtime}.

Lemma extends_by_refl P (w : world E) : extends_by P w w.
Proof. exists []. by rewrite app_nil_r. Qed.

Lemma extends_by_trans P (a b c : world E) :
  extends_by P a b → extends_by P b c → extends_by P a c.
Proof.
  intros (e1 & H1 & F1) (e2 & H2 & F2). exists (e1 ++ e2).
  rewrite H2, H1, app_assoc. split; [done | by apply Forall_app].
Qed.

Lemma extends_by_call (P : event → Prop) (w : world E) e' ev :
  P ev → extends_by P w (World e' (log w ++ [ev]) (js_heap w) (cache w)).
Proof. intros Hev. exists [ev]. split; [done | by constructor]. Qed.

Lemma extends_by_state P (w : world E) h c :
  extends_by P w (World (env w) (log w) h c).
Proof. exists []. simpl. by rewrite app_nil_r. Qed.

Lemma ends_with_bind {A B} P T (s : M E A) (k : A → M E B) :
  keeps (extends_by P) s → T false [] →
  (∀ x, ends_with P T (k x)) → ends_with P T (bind s k).
Proof.
  intros Hs HT Hk w. unfold bind. destruct (Hs w) as (evs & Hlog & HP).
  destruct (s w) as [[x|e] w1]; simpl in *.
  - destruct (Hk x w1) as (pre & post & Hl & Hp & Ht).
    exists (evs ++ pre), post. rewrite Hl, Hlog, <- !app_assoc.
    split; [done|]. split; [by apply Forall_app | done].
  - exists evs, []. by rewrite app_nil_r.
Qed.

(** The two entry points wrap their body alike: the gate is acquired
    first, and released by the handler when the body failed. *)
Lemma gate_catch {A} P T (body : M E A) (w : world E) :
  ends_with P T body →
  let out := catch (call_ ELock lock_lock ;;; body)
                   (λ error, call_ EUnlock lock_unlock ;;; throw error) w in
  ∃ pre post,
    log out.2
    = log w ++ ELock :: pre ++ post ++ (if is_ok out.1 then [] else [EUnlock]) ∧
    Forall P pre ∧ T (is_ok out.1) post.
Proof.
  intros Hbody. simpl. unfold catch, bind, call_, call, throw. simpl.
  destruct (Hbody (World (lock_lock (env w)) (log w ++ [ELock])
                         (js_heap w) (cache w))) as (pre & post & Hl & Hp & Ht).
  destruct (body _) as [[a|e] w1]; simpl in *; exists pre, post.
  - rewrite Hl, app_nil_r, <- !app_assoc. done.
  - rewrite Hl, <- !app_assoc. done.
Qed.

Lemma pushHeadToOrigin_log branch (w : world E) :
  let out := Repo.pushHeadToOrigin branch w in
  ∃ pushed,
    log out.2 = log w ++ pushed ∧
    pushed `prefix_of` push_events branch ∧
    (is_ok out.1 = true → pushed = push_events branch).
Proof.
  simpl. unfold Repo.pushHeadToOrigin, Repo.getReferenceCommit, bind, call,
    push_events. simpl.
  destruct (repo_getRemote "origin" (env w)) as [[remote|e] e1]; simpl.
  2:{ eexists [_]. split; [done|].
      split; [repeat apply prefix_cons; apply prefix_nil | intros ?; first [discriminate | done]]. }
  destruct (remote_push remote _ e1) as [[[]|e] e2]; simpl.
  2:{ eexists [_; _]. rewrite <- app_assoc. split; [done|].
      split; [repeat apply prefix_cons; apply prefix_nil | intros ?; first [discriminate | done]]. }
  destruct (repo_getReferenceCommit "HEAD" e2) as [[headCommit|e] e3]; simpl.
  2:{ eexists [_; _; _]. rewrite <- !app_assoc. split; [done|].
      split; [repeat apply prefix_cons; apply prefix_nil | intros ?; first [discriminate | done]]. }
  destruct (repo_getReferenceCommit _ e3) as [[remoteCommit|e] e4]; simpl.
  2:{ eexists [_; _; _; _]. rewrite <- !app_assoc. split; [done|].
      split; [repeat apply prefix_cons; apply prefix_nil | intros ?; first [discriminate | done]]. }
  eexists [_; _; _; _].
  destruct (negb _); simpl; rewrite <- !app_assoc;
    (split; [done|];
     split; [repeat apply prefix_cons; apply prefix_nil | intros ?; first [discriminate | done]]).
Qed.

Local Ltac shape_side :=
  first
    [ exact (extends_by_refl _)
    | exact (extends_by_trans _)
    | exact (extends_by_call _)
    | exact (extends_by_state _)
    | (intros ? ?; apply extends_by_state)
    | assumption
    | reflexivity ].


(** The shape of a write: whatever happens in [replacePath], the gate is
    acquired first and released last; the calls of the push step come
    right before the release, after everything else, in the order of
    [pushHeadToOrigin]; no other event pushes or touches the gate; and a
    write that succeeds has made all the calls of the push step. *)
Theorem replacePath_shape parentVersion updateBranch path newFiles
  (w : world E) :
  let out := Repo.replacePath parentVersion updateBranch path newFiles w in
  ∃ pre pushed,
    log out.2 = log w ++ ELock :: pre ++ pushed ++ [EUnlock] ∧
    Forall (λ ev, kind_of ev ≠ KGate ∧ kind_of ev ≠ KPush) pre ∧
    pushed `prefix_of` push_events updateBranch ∧
    (is_ok out.1 = true → pushed = push_events updateBranch).
Proof.
  set (P := λ ev, kind_of ev ≠ KGate ∧ kind_of ev ≠ KPush).
  set (T := λ (ok : bool) (post : list event),
              ∃ pushed, pushed `prefix_of` push_events updateBranch ∧
                        (ok = true → pushed = push_events updateBranch) ∧
                        post = pushed ++ if ok then [EUnlock] else []).
  set (allowed := λ k, negb (among [KGate; KPush] k)).
  assert (∀ ev, allowed (kind_of ev) = true → P ev) as Hkind.
  { intros ev. unfold allowed, among, P.
    rewrite negb_true_iff, bool_decide_eq_false. set_solver. }
  assert (T false []) as HT.
  { exists []. split; [apply prefix_nil|]. done. }
  simpl. unfold Repo.replacePath.
  destruct (gate_catch P T
    (let* parentCommit := Repo.getCommitByVersion parentVersion in
     let* branchCommit :=
       Repo.getCommitForUpdateBranch
         (JsString.or_else updateBranch parentVersion) in
     let* newTreeOid := Repo.writeFiles parentCommit path newFiles in
     let* commitHash :=
       Repo.commitAndMerge parentCommit branchCommit newTreeOid
                           ("Update '/" +:+ path +:+ "'") in
     Repo.pushHeadToOrigin updateBranch ;;;
     call_ EUnlock lock_unlock ;;;
     ret commitHash) w)
    as (pre & post & Hlog & Hpre & pushed & Hpref & Hall & ->).
  - apply ends_with_bind; [|done|intros parentCommit].
    { apply (fp_getCommitByVersion _ P allowed); shape_side. }
    apply ends_with_bind; [|done|intros branchCommit].
    { apply (fp_getCommitForUpdateBranch _ P allowed); shape_side. }
    apply ends_with_bind; [|done|intros newTreeOid].
    { apply (fp_writeFiles _ P allowed); shape_side. }
    apply ends_with_bind; [|done|intros commitHash'].
    { apply (fp_commitAndMerge _ P allowed); shape_side. }
    intros w0. exists [].
    destruct (pushHeadToOrigin_log updateBranch w0) as (pp & Hl & Hp & Ha).
    unfold bind, call_, call, ret.
    destruct (Repo.pushHeadToOrigin updateBranch w0) as [[[]|e] w1];
      simpl in *.
    + exists (pp ++ [EUnlock]).
      rewrite Hl, <- app_assoc. split; [done|]. split; [done|].
      exists pp. auto.
    + exists pp. split; [done|]. split; [done|]. exists pp.
      rewrite app_nil_r. split; [done|]. split; [done|]. done.
  - exists pre, pushed. rewrite Hlog. split; [|done].
    destruct (is_ok _); simpl; by rewrite <- ?app_assoc, ?app_nil_r.
Qed.

End Shape.

(** ** Writing the files of a write *)

Section WriteFiles.
Context {E : Type} `{!Engine E} {RT : Runtime}.

Lemma outputFiles_log fqPath newFiles :
  ∀ w : world E,
    let out := Repo.outputFiles fqPath newFiles w in
    ∃ written,
      log out.2
      = log w ++ map (λ f, EOutputJson (fqPath +:+ "/" +:+ f.1 +:+ ".json"))
                     written ∧
      written `prefix_of` newFiles ∧
      (is_ok out.1 = true → written = newFiles).
Proof.
  induction newFiles as [|[file data] rest IH]; intros w; simpl.
  { exists []. simpl. by rewrite app_nil_r. }
  unfold bind, call. simpl.
  destruct (outputJsonSync _ data (env w)) as [[[]|e] e1]; simpl.
  - destruct (IH (World e1
                    (log w ++ [EOutputJson (fqPath +:+ "/" +:+ file +:+ ".json")])
                    (js_heap w) (cache w)))
      as (written & Hlog & Hpre & Hall).
    exists ((file, data) :: written). simpl in *.
    rewrite Hlog, <- app_assoc. split; [done|].
    split; [by apply prefix_cons|]. intros Hok. by rewrite Hall.
  - exists [(file, data)]. split; [done|].
    split; [apply prefix_cons, prefix_nil | intros [=]].
Qed.

(** [writeFiles] resets to the parent commit, removes everything under
    the target path, writes one file per entry of the new files under
    that path, each named by its key with the extension [.json], in the
    order of the keys, and then stages and writes the tree; it stops at
    the first call that fails.  With no new files nothing is written after
    the removal. *)
Theorem writeFiles_log parentCommit path newFiles (w : world E) :
  let workdir := repo_workdir (Reset_reset parentCommit 3%Z (env w)).2 in
  let out := Repo.writeFiles parentCommit path newFiles w in
  ∃ evs,
    log out.2 = log w ++ evs ∧
    evs `prefix_of` writeFiles_events workdir parentCommit path newFiles ∧
    (is_ok out.1 = true
     → evs = writeFiles_events workdir parentCommit path newFiles).
Proof.
  simpl. unfold Repo.writeFiles, writeFiles_events, bind, call, ask. simpl.
  destruct (Reset_reset parentCommit 3%Z (env w)) as [[[]|e] e1]; simpl.
  2:{ exists [EReset (sha parentCommit)]. split; [done|].
      split; [apply prefix_cons, prefix_nil | intros [=]]. }
  set (fqPath := JsString.slice_0_neg 1 (repo_workdir e1) +:+ "/" +:+ path).
  destruct (rimraf_sync (fqPath +:+ "/*") e1) as [[[]|e] e2]; simpl.
  2:{ exists [EReset (sha parentCommit); ERimraf (fqPath +:+ "/*")].
      rewrite <- app_assoc. split; [done|].
      split; [do 2 apply prefix_cons; apply prefix_nil | intros [=]]. }
  set (w2 := World e2 _ (js_heap w) (cache w)).
  destruct (outputFiles_log fqPath newFiles w2) as (written & Hlog & Hpre & Hall).
  destruct (Repo.outputFiles fqPath newFiles w2) as [[[]|e] w3]; simpl in *.
  2:{ eexists ([_; _] ++ map _ written).
      rewrite Hlog. subst w2. simpl. rewrite <- !app_assoc. split; [done|].
      split; [|intros [=]]. simpl. do 2 apply prefix_cons.
      destruct Hpre as (k & ->). rewrite map_app.
      rewrite <- app_assoc. by apply prefix_app_r. }
  rewrite (Hall eq_refl) in Hlog. clear Hall Hpre written.
  assert (∀ tail full,
            tail `prefix_of` full →
            ([EReset (sha parentCommit); ERimraf (fqPath +:+ "/*")] ++
             map (λ f, EOutputJson (fqPath +:+ "/" +:+ f.1 +:+ ".json"))
                 newFiles ++ tail)
            `prefix_of`
            ([EReset (sha parentCommit); ERimraf (fqPath +:+ "/*")] ++
             map (λ f, EOutputJson (fqPath +:+ "/" +:+ f.1 +:+ ".json"))
                 newFiles ++ full)) as Hpre.
  { intros tail full Ht. by do 2 apply prefix_app. }
  assert (∀ tail,
            (log w3 ++ tail)
            = log w ++
              ([EReset (sha parentCommit); ERimraf (fqPath +:+ "/*")] ++
               map (λ f, EOutputJson (fqPath +:+ "/" +:+ f.1 +:+ ".json"))
                   newFiles ++ tail)) as Hfull.
  { intros tail. rewrite Hlog. subst w2. simpl. by rewrite <- !app_assoc. }
  destruct (repo_refreshIndex (env w3)) as [[index|e] e4]; simpl.
  2:{ eexists. rewrite Hfull. split; [done|]. split; [|intros [=]].
      apply Hpre. apply prefix_cons, prefix_nil. }
  destruct (index_addAll index e4) as [[[]|e] e5]; simpl.
  2:{ eexists. rewrite <- app_assoc, Hfull. split; [done|].
      split; [|intros [=]].
      apply Hpre. do 2 apply prefix_cons. apply prefix_nil. }
  destruct (index_write index e5) as [[[]|e] e6]; simpl.
  2:{ eexists. rewrite <- !app_assoc, Hfull. split; [done|].
      split; [|intros [=]].
      apply Hpre. do 3 apply prefix_cons. apply prefix_nil. }
  destruct (index_writeTree index e6) as [[oid|e] e7]; simpl;
    (eexists; rewrite <- !app_assoc, Hfull; split; [done|]; split; [|done];
     apply Hpre; do 4 apply prefix_cons; apply prefix_nil).
Qed.

End WriteFiles.

(** ** What an update and a read leave in the cache *)

Section CacheOutcome.
Context {E : Type} `{!Engine E} {RT : Runtime}.

Lemma rebuild_keeps_cache commit :
  keeps (λ a b : world E, cache b = cache a)
        (let* fileEntries := Cache.getFileEntries commit in
         Cache.buildData fileEntries).
Proof.
  apply keeps_bind; [intros; simpl in *; congruence| |intros fileEntries].
  - apply (fp_getFileEntries _ (λ _, True) (λ _, true));
      first [done | intros; simpl in *; congruence].
  - apply (fp_buildData _ (λ _, True) (λ _, true));
      first [done | intros; simpl in *; congruence].
Qed.

(** After [update], either the cache holds the snapshot of the commit, or
    the update failed and the cache is what it was: its commit hash, its
    nested object and its flat map. *)
Lemma update_cases commit (w : world E) :
  let out := Cache.update commit w in
  match out.1 with
  | Ok _ => commitHash (cache out.2) = sha commit
  | Err _ => cache out.2 = cache w
  end.
Proof.
  simpl. destruct (Cache.update commit w) as [[[]|e] w'] eqn:Hrun; simpl.
  - destruct (decide (sha commit = commitHash (cache w))) as [Heq|Hne].
    + rewrite (update_same_commit commit w Heq) in Hrun.
      inversion Hrun; subst. congruence.
    + by eapply update_other_commit.
  - unfold Cache.update in Hrun. unfold bind at 1, get_cache in Hrun.
    simpl in Hrun. destruct (negb _); [|discriminate].
    pose proof (rebuild_keeps_cache commit w) as Hkeep.
    change (Cache.getFileEntries commit ;;; _) with
      (let* fileEntries := Cache.getFileEntries commit in
       let* r := Cache.buildData fileEntries in
       put_cache {| commitHash := sha commit; object := r.1; files := r.2 |})
      in Hrun.
    unfold bind in Hrun, Hkeep.
    destruct (Cache.getFileEntries commit w) as [[entries|e1] w1]; simpl in *.
    2:{ by inversion Hrun; subst. }
    destruct (Cache.buildData entries w1) as [[r|e2] w2]; simpl in *.
    + discriminate.
    + by inversion Hrun; subst.
Qed.


(** A rebuild that succeeds: the tree of the commit was read and walked,
    the snapshot built from its entries whose name ends with [.json],
    and the cache then holds that snapshot under the hash of the
    commit. *)
Lemma update_rebuild_run commit (w w' : world E) :
  Cache.update commit w = (Ok tt, w') →
  sha commit ≠ commitHash (cache w) →
  ∃ tree e1 entries e2 obj flat w2,
    commit_getTree commit (env w) = (Ok tree, e1) ∧
    tree_walk tree e1 = (Ok entries, e2) ∧
    Cache.buildData
      (filter (λ entry, JsString.endsWith (entry_name entry) ".json" = true)
              entries)
      (World e2 (log w ++ [EGetTree (sha commit); ETreeWalk tree])
             (js_heap w) (cache w))
    = (Ok (obj, flat), w2) ∧
    w' = World (env w2) (log w2) (js_heap w2)
               {| commitHash := sha commit; object := obj; files := flat |}.
Proof.
  intros Hrun Hne. unfold Cache.update in Hrun.
  unfold bind at 1, get_cache in Hrun. simpl in Hrun.
  destruct (String.eqb_spec (sha commit) (commitHash (cache w))); [done|].
  simpl in Hrun.
  apply bind_ok_inv in Hrun as (fileEntries & w1 & Hentries & Hrun).
  apply bind_ok_inv in Hrun as ([obj flat] & w2 & Hbuild & Hrun).
  unfold Cache.getFileEntries in Hentries.
  apply bind_ok_inv in Hentries as (tree & wt & Htree & Hentries).
  apply bind_ok_inv in Hentries as (entries & ww & Hwalk & Hentries).
  unfold ret in Hentries. inversion Hentries; subst fileEntries ww.
  rewrite call_run in Htree. rewrite call_run in Hwalk.
  destruct (commit_getTree commit (env w)) as [rt e1] eqn:Ht.
  simpl in Htree. injection Htree as -> <-. simpl in Hwalk.
  destruct (tree_walk tree e1) as [rw e2] eqn:Hw.
  simpl in Hwalk. injection Hwalk as -> <-.
  rewrite <- app_assoc in Hbuild. simpl in Hbuild.
  unfold put_cache in Hrun. injection Hrun as <-.
  by exists tree, e1, entries, e2, obj, flat, w2.
Qed.

(** A successful read: the fetch from [origin] succeeded, the version
    token resolved to a commit in the state after the fetch, the commit
    hash that the read reports is the hash of that commit, and the cache
    then holds the snapshot of that commit: the one it held already when
    its hash was that of the commit, and otherwise the one built from
    the entries of the tree of the commit whose name ends with
    [.json]. *)
Theorem getData_hash_matches version path listFiles (w w' : world E) r :
  Repo.getData version path listFiles w = (Ok r, w') →
  ∃ e1 commit w2,
    repo_fetch "origin" (lock_lock (env w)) = (Ok tt, e1) ∧
    Repo.getCommitByVersion version
      (World e1 (log w ++ [ELock; EFetch "origin"]) (js_heap w) (cache w))
    = (Ok commit, w2) ∧
    rr_commitHash r = sha commit ∧
    commitHash (cache w') = sha commit ∧
    (sha commit = commitHash (cache w) → cache w' = cache w) ∧
    (sha commit ≠ commitHash (cache w) →
     ∃ tree e2 entries e3 obj flat w3,
       commit_getTree commit (env w2) = (Ok tree, e2) ∧
       tree_walk tree e2 = (Ok entries, e3) ∧
       Cache.buildData
         (filter (λ entry,
                    JsString.endsWith (entry_name entry) ".json" = true)
                 entries)
         (World e3 (log w2 ++ [EGetTree (sha commit); ETreeWalk tree])
                (js_heap w) (cache w))
       = (Ok (obj, flat), w3) ∧
       cache w'
       = {| commitHash := sha commit; object := obj; files := flat |}).
Proof.
  unfold Repo.getData, catch.
  destruct (bind _ _ w) as [[a|e] w0] eqn:Hbody; intros H.
  2:{ unfold bind, call_, call in H. discriminate. }
  inversion H; subst a w0; clear H.
  apply bind_ok_inv in Hbody as ([] & w1 & Hlock & H).
  apply bind_ok_inv in H as ([] & w2 & Hfetch & H).
  apply bind_ok_inv in H as (commit & wa & Hres & H).
  apply bind_ok_inv in H as ([] & wb & Hupd & H).
  apply bind_ok_inv in H as ([] & w3 & Hunlock & H).
  unfold call_ in Hlock, Hunlock. rewrite call_run in Hlock, Hfetch, Hunlock.
  inversion Hlock; subst w1; clear Hlock.
  inversion Hunlock; subst w3; clear Hunlock.
  simpl in Hfetch.
  destruct (repo_fetch "origin" (lock_lock (env w))) as [rf ef] eqn:Hf.
  simpl in Hfetch. inversion Hfetch; subst rf w2; clear Hfetch.
  rewrite <- app_assoc in Hres. simpl in Hres.
  pose proof (getCommitByVersion_frame version
                (World ef (log w ++ [ELock; EFetch "origin"]) (js_heap w)
                       (cache w))) as (Hc & Hh & _).
  rewrite Hres in Hc, Hh. simpl in Hc, Hh.
  assert (rr_commitHash r = commitHash (cache wb) ∧ cache w' = cache wb)
    as [Hr Hw'].
  { unfold Cache.getCommitHash, Cache.getFiles, Cache.getObject,
      bind, get_cache, get_heap, ret in H. simpl in H.
    destruct listFiles; destruct (negb _); simpl in H;
      inversion H; subst; simpl; done. }
  exists ef, commit, wa. split; [done|]. split; [done|].
  pose proof (update_cases commit wa) as Hout. simpl in Hout.
  rewrite Hupd in Hout. simpl in Hout.
  split; [congruence|]. split; [congruence|]. split.
  - intros Heq. rewrite <- Hc in Heq.
    rewrite (update_same_commit commit wa Heq) in Hupd.
    injection Hupd as <-. congruence.
  - intros Hne. rewrite <- Hc in Hne.
    destruct (update_rebuild_run commit wa wb Hupd Hne)
      as (tree & e2 & entries & e3 & obj & flat & w3 & Ht & Hw & Hb & ->).
    rewrite Hh, Hc in Hb.
    exists tree, e2, entries, e3, obj, flat, w3. by rewrite Hw'.
Qed.






End CacheOutcome.

(** ** Failures of a write before its push *)

Section WriteFailures.
Context {E : Type} `{!Engine E} {RT : Runtime}.

(** When the merge of the update-branch commit with the new commit has
    conflicts, [commitAndMerge] fails with the error "Merge conflict".  By
    then the new commit exists and [HEAD] was set to it; no merge commit is
    created and no tree is written for it. *)
Theorem commitAndMerge_conflict parentCommit branchCommit treeOid msg
  (w : world E) oid e1 commit e2 index e3 :
  repo_createCommit "HEAD" (signature_of (env w)) (signature_of (env w)) msg
                    treeOid [parentCommit] (env w) = (Ok oid, e1) →
  repo_getCommit oid e1 = (Ok commit, e2) →
  Repo.isAncestor_loop (sha branchCommit) (repo_revwalk (sha commit) e2).1
                       (repo_revwalk (sha commit) e2).2 = Ok false →
  Merge_commits branchCommit commit e2 = (Ok index, e3) →
  index_hasConflicts index e3 = true →
  Repo.commitAndMerge parentCommit branchCommit treeOid msg w
  = (Err (new_Error "Merge conflict"),
     World e3
           (log w ++ [ECreateCommit "HEAD" msg treeOid [sha parentCommit];
                      EGetCommit oid; ERevWalk (sha commit);
                      EMergeCommits (sha branchCommit) (sha commit)])
           (js_heap w) (cache w)).
Proof.
  intros Hcreate Hget Hanc Hmerge Hconf.
  unfold Repo.commitAndMerge, Repo.createSignature, Repo.createCommit,
    Repo.getCommit, Repo.isAncestor, bind, call, ask, ret, throw.
  unfold signature_of in Hcreate. simpl.
  rewrite Hcreate. simpl. rewrite Hget. simpl. rewrite Hanc. simpl.
  rewrite Hmerge. simpl. rewrite Hconf. by rewrite <- !app_assoc.
Qed.

(** [commitAndMerge] only creates commits, looks commits up, walks the
    history and merges: it never fetches, never pushes, never touches the
    files of the working tree or the gate, and it leaves the cache and the
    heap as they were. *)
Theorem commitAndMerge_footprint parentCommit branchCommit treeOid msg
  (w : world E) :
  let out := Repo.commitAndMerge parentCommit branchCommit treeOid msg w in
  js_heap out.2 = js_heap w ∧ cache out.2 = cache w ∧
  ∃ evs, log out.2 = log w ++ evs ∧
         Forall (λ ev, kind_of ev ∈ [KCommit; KLookup; KWalk; KMerge]) evs.
Proof.
  set (P := λ ev, kind_of ev ∈ [KCommit; KLookup; KWalk; KMerge]).
  set (allowed := among [KCommit; KLookup; KWalk; KMerge]).
  simpl.
  pose proof (fp_commitAndMerge
                (λ a b, (js_heap b = js_heap a ∧ cache b = cache a) ∧
                        extends_by P a b) P allowed) as Hfp.
  destruct (Hfp) with (parentCommit := parentCommit)
                      (branchCommit := branchCommit) (treeOid := treeOid)
                      (msg := msg) (w := w) as [[Hh Hc] Hlog]; try done.
  - intros a. split; [done | apply extends_by_refl].
  - intros a b c [[H1 H2] H3] [[H4 H5] H6].
    split; [split; congruence | by eapply extends_by_trans].
  - intros a e' ev Hev. split; [done | by apply extends_by_call].
  - intros ev Hev. unfold allowed, among in Hev.
    by apply bool_decide_eq_true in Hev.
Qed.

(** When the parent version is resolved and the remote-tracking reference
    of the update branch is not, the write fails with the error "Invalid
    or missing update branch", whatever the error of the lookup; nothing
    was reset, written, committed or pushed, and the gate is released.
    The update branch, or the parent version in its place, is only ever
    looked up as a branch. *)
Theorem replacePath_update_branch_missing parentVersion updateBranch path
  newFiles (w w1 : world E) parentCommit x e2 :
  Repo.getCommitByVersion parentVersion
    (World (lock_lock (env w)) (log w ++ [ELock]) (js_heap w) (cache w))
  = (Ok parentCommit, w1) →
  repo_getReferenceCommit
    ("refs/remotes/origin/" +:+ JsString.or_else updateBranch parentVersion)
    (env w1) = (Err x, e2) →
  Repo.replacePath parentVersion updateBranch path newFiles w
  = (Err (new_Error "Invalid or missing update branch"),
     World (lock_unlock e2)
           (log w1 ++
            [EGetReferenceCommit
               ("refs/remotes/origin/" +:+
                JsString.or_else updateBranch parentVersion);
             EUnlock])
           (js_heap w) (cache w)).
Proof.
  intros Hparent Hbranch.
  pose proof (getCommitByVersion_frame parentVersion
                (World (lock_lock (env w)) (log w ++ [ELock])
                       (js_heap w) (cache w))) as (Hc & Hh & _).
  rewrite Hparent in Hc, Hh. simpl in Hc, Hh.
  unfold Repo.replacePath, catch. unfold bind at 1, call_ at 1, call at 1.
  simpl. unfold bind at 1. rewrite Hparent.
  unfold bind at 1, Repo.getCommitForUpdateBranch, catch, call at 1.
  rewrite Hbranch. unfold throw, bind, call_, call. simpl.
  by rewrite <- app_assoc, Hc, Hh.
Qed.

(** A read only uses the gate, fetches, looks commits up and reads trees
    and blobs: it never creates a commit, never merges, never pushes and
    never touches the working tree. *)
Theorem getData_read_only version path listFiles (w : world E) :
  ∃ evs,
    log (Repo.getData version path listFiles w).2 = log w ++ evs ∧
    Forall (λ ev, kind_of ev ∈ [KGate; KFetch; KLookup; KTree]) evs.
Proof.
  set (P := λ ev, kind_of ev ∈ [KGate; KFetch; KLookup; KTree]).
  set (allowed := among [KGate; KFetch; KLookup; KTree]).
  assert (∀ ev, allowed (kind_of ev) = true → P ev) as Hkind.
  { intros ev Hev. unfold allowed, among in Hev.
    by apply bool_decide_eq_true in Hev. }
  assert (∀ ev, allowed (kind_of ev) = true →
                keeps (extends_by P) (call_ ev lock_unlock)) as Hunlock.
  { intros ev Hev. apply (keeps_call_ _ P); [apply extends_by_call | auto]. }
  enough (keeps (extends_by P) (Repo.getData version path listFiles)) as Hk
    by apply Hk.
  unfold Repo.getData.
  apply keeps_catch; [apply extends_by_trans| |intros error].
  2:{ apply keeps_bind; [apply extends_by_trans|by apply Hunlock|intros _].
      apply keeps_throw, extends_by_refl. }
  apply keeps_bind; [apply extends_by_trans| |intros _].
  { apply (keeps_call_ _ P); [apply extends_by_call | by apply Hkind]. }
  apply keeps_bind; [apply extends_by_trans| |intros _].
  { apply (keeps_call _ P); [apply extends_by_call | by apply Hkind]. }
  apply keeps_bind; [apply extends_by_trans| |intros commit].
  { apply (fp_getCommitByVersion _ P allowed);
      first [ exact (extends_by_refl _) | exact (extends_by_trans _)
            | exact (extends_by_call _) | assumption | reflexivity ]. }
  apply keeps_bind; [apply extends_by_trans| |intros _].
  { apply (fp_update _ P allowed);
      first [ exact (extends_by_refl _) | exact (extends_by_trans _)
            | exact (extends_by_call _) | exact (extends_by_state _)
            | (intros ? ?; apply extends_by_state)
            | assumption | reflexivity ]. }
  apply keeps_bind; [apply extends_by_trans|by apply Hunlock|intros _].
  intros w0.
  unfold bind, Cache.getCommitHash, Cache.getFiles, Cache.getObject,
    get_cache, get_heap, ret. simpl.
  destruct listFiles; destruct (negb _); simpl; apply extends_by_refl.
Qed.

End WriteFailures.

(** ** Further runs on the in-memory engine *)

Section Examples5.
#[local] Existing Instance MemEngine.runtime.

Lemma getData_hash_matches_witness :
  let w := MemEngine.world0 in
  let w' := (Repo.getData "master" "dir" false MemEngine.world0).2 in
  ∃ e1 commit w2,
    repo_fetch "origin" (lock_lock (env w)) = (Ok tt, e1) ∧
    Repo.getCommitByVersion "master"
      (World e1 (log w ++ [ELock; EFetch "origin"]) (js_heap w) (cache w))
    = (Ok commit, w2) ∧
    "c1" = sha commit ∧
    commitHash (cache w') = sha commit ∧
    (sha commit = commitHash (cache w) → cache w' = cache w) ∧
    (sha commit ≠ commitHash (cache w) →
     ∃ tree e2 entries e3 obj flat w3,
       commit_getTree commit (env w2) = (Ok tree, e2) ∧
       tree_walk tree e2 = (Ok entries, e3) ∧
       Cache.buildData
         (filter (λ entry,
                    JsString.endsWith (entry_name entry) ".json" = true)
                 entries)
         (World e3 (log w2 ++ [EGetTree (sha commit); ETreeWalk tree])
                (js_heap w) (cache w))
       = (Ok (obj, flat), w3) ∧
       cache w'
       = {| commitHash := sha commit; object := obj; files := flat |}).
Proof.
  apply (getData_hash_matches "master" "dir" false MemEngine.world0
           (Repo.getData "master" "dir" false MemEngine.world0).2
           {| rr_commitHash := "c1"; rr_data := DataObject (VObj 2) |}).
  vm_compute. reflexivity.
Defined.



Lemma commitAndMerge_conflict_witness :
  let created :=
    MemEngine.createCommit "HEAD" (signature_of repo_conflict)
      (signature_of repo_conflict) "Update '/dir'" "t3" [MemEngine.c1]
      repo_conflict in
  Repo.commitAndMerge MemEngine.c1 MemEngine.c2 "t3" "Update '/dir'"
                      world_conflict
  = (Err (new_Error "Merge conflict"),
     World created.2
           [ECreateCommit "HEAD" "Update '/dir'" "t3" ["c1"];
            EGetCommit "c3"; ERevWalk "c3"; EMergeCommits "c2" "c3"]
           (js_heap world_conflict) (Cache.initial (VObj 0))).
Proof.
  eapply (commitAndMerge_conflict MemEngine.c1 MemEngine.c2 "t3"
            "Update '/dir'" world_conflict "c3" _
            {| sha := "c3"; parents := ["c1"]; tree_id := "t3" |} _ 1);
    vm_compute; reflexivity.
Defined.

(** A write whose parent version is a commit identifier and that names
    no update branch. *)
Lemma replacePath_update_branch_missing_witness :
  Repo.replacePath "c1" None "dir" [("x", JNum 1%Z)] MemEngine.world0
  = (Err (new_Error "Invalid or missing update branch"),
     World (MemEngine.set_locked false (MemEngine.set_locked true MemEngine.repo0))
           [ELock; EGetReferenceCommit "refs/remotes/origin/c1";
            EGetCommit "c1"; EGetReferenceCommit "refs/remotes/origin/c1";
            EUnlock]
           (js_heap MemEngine.world0) (Cache.initial (VObj 0))).
Proof.
  pose proof
    (replacePath_update_branch_missing "c1" None "dir" [("x", JNum 1%Z)]
       MemEngine.world0
       (World (MemEngine.set_locked true MemEngine.repo0)
              [ELock; EGetReferenceCommit "refs/remotes/origin/c1";
               EGetCommit "c1"]
              (js_heap MemEngine.world0) (Cache.initial (VObj 0)))
       MemEngine.c1 (MemEngine.not_found "reference")
       (MemEngine.set_locked true MemEngine.repo0)) as H.
  rewrite H; [reflexivity | vm_compute; reflexivity | vm_compute; reflexivity].
Defined.

End Examples5.

(** ** The objects that a rebuild leaves alone *)

Lemma json_nested_ind (P : json → Prop) :
  P JNull → (∀ b, P (JBool b)) → (∀ n, P (JNum n)) → (∀ s, P (JStr s)) →
  (∀ items, Forall P items → P (JArr items)) →
  (∀ members, Forall (λ m, P m.2) members → P (JObj members)) →
  ∀ j, P j.
Proof.
  intros Hnull Hbool Hnum Hstr Harr Hobj.
  fix IH 1. intros [|b|n|s|items|members].
  - exact Hnull.
  - exact (Hbool b).
  - exact (Hnum n).
  - exact (Hstr s).
  - apply Harr. revert items. fix go 1.
    intros [|x rest]; constructor; [apply IH | apply go].
  - apply Hobj. revert members. fix go 1.
    intros [|[k x] rest]; constructor; [apply IH | apply go].
Qed.

Lemma value_from_le b b' v : b ≤ b' → value_from b' v → value_from b v.
Proof. destruct v; simpl; try done. lia. Qed.

Lemma array_props_values i vs key v :
  Heap.array_props i vs !! key = Some v → v ∈ vs.
Proof.
  revert i. induction vs as [|x vs IH]; intros i; simpl.
  - by rewrite lookup_empty.
  - rewrite lookup_insert. destruct (decide (Heap.index_key i = key)).
    + intros [= ->]. by left.
    + intros H. right. by eapply IH.
Qed.

Lemma alloc_json_closed j :
  ∀ base,
    value_from base (Heap.alloc_json j base).1 ∧
    ∀ o, o ∈ (Heap.alloc_json j base).2 →
         ∀ key v, props o !! key = Some v → value_from base v.
Proof.
  induction j as [| | | |items IH|members IH] using json_nested_ind;
    intros base; simpl; try (split; [done | by intros o ?%elem_of_nil]).
  - assert (∀ b,
              let r := (fix go (l : list json) (b : nat)
                          : list value * list js_object :=
                          match l with
                          | [] => ([], [])
                          | x :: l' =>
                              let '(v, o1) := Heap.alloc_json x b in
                              let '(vs, o2) := go l' (b + length o1) in
                              (v :: vs, o1 ++ o2)
                          end) items b in
              (∀ v, v ∈ r.1 → value_from b v) ∧
              (∀ o, o ∈ r.2 → ∀ key v, props o !! key = Some v →
                                       value_from b v)) as Hgo.
    { induction IH as [|x items Hx _ IHitems]; intros b; simpl.
      { split; [by intros v ?%elem_of_nil | by intros o ?%elem_of_nil]. }
      specialize (Hx b). destruct (Heap.alloc_json x b) as [v o1].
      specialize (IHitems (b + length o1)). simpl in IHitems.
      destruct ((fix go (l : list json) (b0 : nat) := _) items
                  (b + length o1)) as [vs o2].
      simpl in *. destruct Hx as [Hv Ho1], IHitems as [Hvs Ho2]. split.
      - intros v' [->|Hin]%elem_of_cons; [done|].
        eapply value_from_le; [|by apply Hvs]. lia.
      - intros o [Hin|Hin]%elem_of_app key v' Hk; [by eapply Ho1|].
        eapply value_from_le; [|by eapply Ho2]. lia. }
    specialize (Hgo base). simpl in Hgo.
    destruct ((fix go (l : list json) (b : nat) := _) items base)
      as [vs objs].
    simpl in *. destruct Hgo as [Hvs Hobjs]. split; [lia|].
    intros o [Hin | ->%list_elem_of_singleton]%elem_of_app key v Hk.
    + by eapply Hobjs.
    + simpl in Hk. by apply Hvs, (array_props_values 0 vs key).
  - assert (∀ b,
              let r := (fix go (l : list (string * json)) (b : nat)
                          : list (string * value) * list js_object :=
                          match l with
                          | [] => ([], [])
                          | (k, x) :: l' =>
                              let '(v, o1) := Heap.alloc_json x b in
                              let '(kvs, o2) := go l' (b + length o1) in
                              ((k, v) :: kvs, o1 ++ o2)
                          end) members b in
              (∀ kv, kv ∈ r.1 → value_from b kv.2) ∧
              (∀ o, o ∈ r.2 → ∀ key v, props o !! key = Some v →
                                       value_from b v)) as Hgo.
    { induction IH as [|[k x] members Hx _ IHm]; intros b; simpl.
      { split; [by intros v ?%elem_of_nil | by intros o ?%elem_of_nil]. }
      simpl in Hx. specialize (Hx b).
      destruct (Heap.alloc_json x b) as [v o1].
      specialize (IHm (b + length o1)). simpl in IHm.
      destruct ((fix go (l : list (string * json)) (b0 : nat) := _) members
                  (b + length o1)) as [kvs o2].
      simpl in *. destruct Hx as [Hv Ho1], IHm as [Hkvs Ho2]. split.
      - intros kv [->|Hin]%elem_of_cons; [done|].
        eapply value_from_le; [|by apply Hkvs]. lia.
      - intros o [Hin|Hin]%elem_of_app key v' Hk; [by eapply Ho1|].
        eapply value_from_le; [|by eapply Ho2]. lia. }
    specialize (Hgo base). simpl in Hgo.
    destruct ((fix go (l : list (string * json)) (b : nat) := _) members base)
      as [kvs objs].
    simpl in *. destruct Hgo as [Hkvs Hobjs]. split; [lia|].
    intros o [Hin | ->%list_elem_of_singleton]%elem_of_app key v Hk.
    + by eapply Hobjs.
    + simpl in Hk.
      pose proof (elem_of_list_to_map_2 (reverse kvs) key v Hk) as Hin.
      apply (Hkvs (key, v)). by apply elem_of_reverse.
Qed.

Lemma closed_from_app b h objs :
  closed_from b h →
  (∀ o, o ∈ objs → ∀ key v, props o !! key = Some v → value_from b v) →
  closed_from b (h ++ objs).
Proof.
  intros Hc Hobjs l o Hl Ho key v Hk.
  apply lookup_app_Some in Ho as [Ho|[_ Ho]].
  - by eapply Hc.
  - eapply Hobjs; [|done]. by eapply list_elem_of_lookup_2.
Qed.

Lemma define_closed b h l key v :
  closed_from b h → value_from b v →
  closed_from b (Heap.define h l key v).
Proof.
  intros Hc Hv l0 o Hl0 Ho key' v' Hk.
  destruct (h !! l) as [o'|] eqn:Hl.
  2:{ unfold Heap.define in Ho. rewrite Hl in Ho. by eapply Hc. }
  destruct (decide (l = l0)) as [->|Hne].
  - rewrite (define_lookup_eq _ _ _ _ _ Hl) in Ho.
    inversion Ho; subst o; clear Ho. simpl in Hk. rewrite lookup_insert in Hk.
    destruct (decide (key = key')); [by inversion Hk; subst | by eapply Hc].
  - rewrite define_lookup_ne in Ho; [|done]. by eapply Hc.
Qed.

Lemma define_length h l key v :
  length (Heap.define h l key v) = length h.
Proof.
  unfold Heap.define. destruct (h !! l); [apply length_insert | done].
Qed.

Lemma own_value_from b (s : store) (l : loc) key :
  closed_from b s → b ≤ l → value_from b (Heap.own s (VObj l) key).
Proof.
  intros Hc Hl. unfold Heap.own.
  destruct (s !! l) as [o|] eqn:Ho; [|done].
  destruct (props o !! key) as [x|] eqn:Hx; [|done]. simpl.
  by eapply Hc.
Qed.


Section HeapFrame.
Context {E : Type} `{!Engine E} {RT : Runtime}.

(** The new value of a level, from an object at or above [b] in a heap
    closed from [b]: no object below [b] is touched. *)
Lemma newValue_frame b h l key rest v :
  exotic h = false → native_name key = false →
  closed_from b (objects h) → b ≤ length (objects h) → b ≤ l →
  value_from b v →
  let nv := Lodash.newValue h (VObj l) key rest v in
  (∀ l0, l0 < b → objects nv.2 !! l0 = objects h !! l0) ∧
  closed_from b (objects nv.2) ∧ b ≤ length (objects nv.2) ∧
  value_from b nv.1.
Proof.
  intros He Hk Hc Hlen Hl Hv. simpl. unfold Lodash.newValue.
  destruct rest as [|next rest]; [done|].
  rewrite getprop_ordinary by done.
  pose proof (own_value_from b (objects h) l key Hc Hl) as Hown.
  destruct (Lodash.isObject (Heap.own (objects h) (VObj l) key)); [done|].
  unfold Heap.new_object. simpl. split; [|split; [|split]].
  - intros l0 Hl0. apply lookup_app_l. lia.
  - apply closed_from_app; [done|].
    intros o ->%list_elem_of_singleton key' v' Hk'.
    destruct (Lodash.isIndex next); simpl in Hk';
      by rewrite lookup_empty in Hk'.
  - rewrite length_app. lia.
  - done.
Qed.

(** [baseSet] from a value that is no object below [b], in a heap closed
    from [b]: unless the heap ends exotic, no object below [b] is
    touched. *)
Lemma baseSet_frame b v path :
  ∀ h nested,
    exotic (Lodash.baseSet h nested path v).2 = false →
    closed_from b (objects h) → b ≤ length (objects h) →
    value_from b nested → value_from b v →
    (∀ l, l < b →
          objects (Lodash.baseSet h nested path v).2 !! l = objects h !! l) ∧
    closed_from b (objects (Lodash.baseSet h nested path v).2) ∧
    b ≤ length (objects (Lodash.baseSet h nested path v).2).
Proof.
  induction path as [|key rest IH]; intros h nested Hx Hc Hlen Hn Hv;
    [done|].
  destruct (decide (nested = VUndefined)) as [->|H1]; [done|].
  destruct (decide (nested = VNull)) as [->|H2]; [done|].
  rewrite baseSet_cons in Hx |- * by done.
  remember (Lodash.newValue h nested key rest v) as nv eqn:Hnv.
  assert (exotic (Heap.setprop nv.2 nested key nv.1).2 = false) as Hs.
  { destruct (Heap.setprop nv.2 nested key nv.1) as [[[]|e] h2];
      [by apply baseSet_exotic in Hx | done]. }
  apply setprop_plain in Hs as (He & Hk & l & ->).
  rewrite (setprop_ordinary _ _ _ _ He Hk) in Hx |- *.
  rewrite Hnv, newValue_exotic in He.
  destruct (newValue_frame b h l key rest v He Hk Hc Hlen Hn Hv)
    as (Hf1 & Hc1 & Hl1 & Hv1).
  rewrite <- Hnv in Hf1, Hc1, Hl1, Hv1.
  set (h2 := MkHeap (Heap.define (objects nv.2) l key nv.1) false) in *.
  assert (closed_from b (objects h2)) as Hc2 by by apply define_closed.
  destruct (IH h2 (Heap.getprop h2 (VObj l) key)) as (Hf & Hcl & Hle);
    [done | done | by simpl; rewrite define_length | |done|].
  { rewrite getprop_ordinary by done. by apply own_value_from. }
  split; [|done]. intros l0 Hl0. rewrite Hf by done. simpl.
  rewrite define_lookup_ne by (simpl in Hn; lia). by apply Hf1.
Qed.





Lemma buildData_run fileEntries (w : world E) :
  Cache.buildData fileEntries w
  = (match (Cache.buildData_loop (VObj (length (objects (js_heap w)))) ∅
              fileEntries (new Heap.empty_object w).2).1 with
     | Ok files => Ok (VObj (length (objects (js_heap w))), files)
     | Err e => Err e
     end,
     (Cache.buildData_loop (VObj (length (objects (js_heap w)))) ∅
        fileEntries (new Heap.empty_object w).2).2).
Proof.
  unfold Cache.buildData, bind, new, ret. simpl.
  by destruct (Cache.buildData_loop _ _ _ _) as [[files|e] w2].
Qed.




(** *** Ordinary inputs give ordinary runs

    The heap stays as it is known whenever the inputs are ordinary:
    [baseSet] along a path of ordinary names, from an object at or above
    [b] in a heap closed from [b], reads and writes own members only. *)
Lemma baseSet_stays_plain b v path :
  ∀ h l,
    exotic h = false → plain_path path →
    closed_from b (objects h) → b ≤ length (objects h) → b ≤ l →
    value_from b v →
    exotic (Lodash.baseSet h (VObj l) path v).2 = false.
Proof.
  induction path as [|key rest IH]; intros h l He Hp Hc Hlen Hl Hv; [done|].
  apply Forall_cons in Hp as [Hk Hrest].
  rewrite baseSet_cons by done.
  pose proof (newValue_exotic h (VObj l) key rest v) as Hnx.
  rewrite He in Hnx.
  destruct (newValue_frame b h l key rest v He Hk Hc Hlen Hl Hv)
    as (_ & Hc1 & Hl1 & Hv1).
  rewrite (setprop_ordinary _ _ _ _ Hnx Hk).
  destruct rest as [|next rest']; [done|].
  assert (Lodash.isObject
            (Lodash.newValue h (VObj l) key (next :: rest') v).1 = true)
    as Hobj.
  { unfold Lodash.newValue.
    by destruct (Lodash.isObject (Heap.getprop h (VObj l) key)) eqn:Hi. }
  remember (Lodash.newValue h (VObj l) key (next :: rest') v) as nv.
  rewrite getprop_ordinary by done. cbn [objects].
  destruct (objects nv.2 !! l) as [o|] eqn:Ho.
  - rewrite (own_define_eq _ _ _ _ _ Ho).
    destruct nv.1 as [| | | | |l'|] eqn:Hnv1; try done.
    apply IH; [done | done | by apply define_closed
              | by simpl; rewrite define_length | done | done].
  - by rewrite (own_define_none _ _ _ _ Ho).
Qed.

Lemma buildData_loop_stays_plain b root fileEntries :
  ∀ F (w : world E),
    exotic (js_heap w) = false → Forall plain_entry fileEntries →
    closed_from b (objects (js_heap w)) →
    b ≤ length (objects (js_heap w)) → b ≤ root →
    exotic (js_heap
              (Cache.buildData_loop (VObj root) F fileEntries w).2) = false.
Proof.
  induction fileEntries as [|entry rest IH];
    intros F w He Hall Hc Hlen Hroot; [done|].
  apply Forall_cons in Hall as [(Hpath & Hsegs & Hdoc) Hall].
  cbn [Cache.buildData_loop]. unfold bind at 1. rewrite call_run.
  destruct (entry_getBlob entry (env w)) as [[content|x] e1] eqn:Hblob;
    [|done].
  cbn [fst snd]. unfold bind at 1. rewrite parse_run.
  destruct (JSON5_parse content) as [j|x] eqn:Hparse; [|done].
  assert (Heap.json_plain j = true) as Hj.
  { apply (Hdoc (env w) content); [by rewrite Hblob | done]. }
  unfold Heap.parsed. cbn [js_heap]. rewrite He, Hj. cbn [negb andb].
  pose proof (alloc_json_closed j (length (objects (js_heap w))))
    as [Hv Hobjs].
  destruct (Heap.alloc_json j (length (objects (js_heap w))))
    as [v objs] eqn:Halloc.
  cbn [fst snd] in Hv, Hobjs |- *.
  unfold bind at 1. rewrite store_file_run. cbn [js_heap].
  rewrite (proj2 (ordinary_spec _ _)) by done.
  unfold bind at 1. rewrite set_path_run. cbn [js_heap env log cache].
  unfold Lodash.set. cbn [Lodash.isObject].
  set (h1 := MkHeap (objects (js_heap w) ++ objs) false).
  assert (closed_from b (objects h1)) as Hc1.
  { apply closed_from_app; [done|]. intros o Ho key v' Hk'.
    eapply value_from_le; [exact Hlen | by eapply Hobjs]. }
  assert (b ≤ length (objects h1)) as Hl1
    by (simpl; rewrite length_app; lia).
  pose proof (value_from_le _ _ _ Hlen Hv) as Hv1.
  pose proof (baseSet_stays_plain b v
                (Cache.segments (Cache.store_path entry)) h1 root
                eq_refl Hsegs Hc1 Hl1 Hroot Hv1) as Hx.
  destruct (baseSet_frame b v (Cache.segments (Cache.store_path entry))
              h1 (VObj root) Hx Hc1 Hl1 Hroot Hv1) as (_ & Hc2 & Hl2).
  destruct (Lodash.baseSet h1 (VObj root) _ v) as [[[]|x] h2]; [|done].
  cbn [fst snd] in *. by apply IH.
Qed.

(** A build from a heap that is not exotic, of entries with ordinary
    paths and documents, leaves the heap not exotic. *)
Lemma buildData_stays_plain fileEntries (w : world E) :
  exotic (js_heap w) = false → Forall plain_entry fileEntries →
  exotic (js_heap (Cache.buildData fileEntries w).2) = false.
Proof.
  intros He Hall. rewrite buildData_run. cbn [snd].
  apply (buildData_loop_stays_plain (length (objects (js_heap w))));
    [done | done | | by simpl; rewrite length_app; lia | done].
  simpl. apply closed_from_app;
    [|by intros o ->%list_elem_of_singleton key v Hk].
  intros l o Hl Ho. apply lookup_lt_Some in Ho. lia.
Qed.

(** A rebuild from a heap that is not exotic, when the entries that the
    walk of the commit's tree returns are ordinary, leaves the heap not
    exotic. *)
Lemma update_stays_plain commit (w : world E) :
  exotic (js_heap w) = false →
  (∀ tree e1 entries e2,
     commit_getTree commit (env w) = (Ok tree, e1) →
     tree_walk tree e1 = (Ok entries, e2) →
     Forall plain_entry
       (filter (λ entry, JsString.endsWith (entry_name entry) ".json" = true)
               entries)) →
  exotic (js_heap (Cache.update commit w).2) = false.
Proof.
  intros He Hall.
  unfold Cache.update, Cache.getFileEntries, bind, get_cache, put_cache,
    call, ret.
  simpl. destruct (negb _); [|done].
  destruct (commit_getTree commit (env w)) as [[tree|x] e1] eqn:Htree;
    simpl; [|done].
  destruct (tree_walk tree e1) as [[entries|x] e2] eqn:Hwalk; simpl; [|done].
  specialize (Hall tree e1 entries e2 eq_refl Hwalk).
  match goal with
  | |- context [Cache.buildData ?l ?w1] =>
      pose proof (buildData_stays_plain l w1 He Hall) as Hx;
      destruct (Cache.buildData l w1) as [[r|x] w2]
  end; done.
Qed.

End HeapFrame.

Section Examples6.
#[local] Existing Instance MemEngine.runtime.


(** The documents of the in-memory parser have no members at all. *)
Lemma mem_parse_plain content j :
  MemEngine.parse content = Ok j → Heap.json_plain j = true.
Proof.
  unfold MemEngine.parse. destruct (String.eqb content "").
  - destruct (String.eqb content "null"); [by intros [= <-]|].
    simpl. by intros [=].
  - destruct (String.eqb content "null"); [by intros [= <-]|].
    simpl. destruct (JsString.all_digits content); by intros [= <-].
Qed.

(** The two documents of [c1] are ordinary entries: the build of their
    snapshot from the heap of [world0] leaves the heap not exotic. *)
Lemma separate_stays_plain :
  Forall plain_entry separate ∧
  exotic (js_heap (Cache.buildData separate MemEngine.world0).2) = false.
Proof.
  assert (Forall plain_entry separate) as Hall.
  { repeat constructor; try (intros e content j _; apply mem_parse_plain). }
  split; [done|]. by apply buildData_stays_plain.
Qed.

End Examples6.
